(** * Condition coverage: the analyzer and the pytest plugin

    A shallow embedding of [pytest_condition_coverage/analyzer.py] and of
    [pytest_condition_coverage/plugin.py]: its two session hooks, the search
    for the files, the loop over them and the report, with the operating
    system, [coverage] and [ast.parse] as the collaborators they are.

    - Python [int]s that are line numbers are [Z]; counters, which only ever
      start at 0 and are incremented, are [nat].
    - Python [dict]s are [gmap]s and [set]s are [gset]s: the code only looks
      keys up, inserts, tests membership and iterates to count or to fill
      another dict, so the results below do not depend on the order of
      iteration.
    - A [coverage_percentage] is a Python [float] obtained from two [int]s by
      [/] and [* 100]; it is modelled by the exact rational [Q] it rounds.
    - [/] raises [ZeroDivisionError] on a zero divisor and [ast.parse] raises
      on invalid source: fallible code lives in the [result] monad.
    - The visitor mutates [ClassInfo] objects through the [current_class]
      reference while [classes] maps names to the same objects: the objects
      live in an explicit heap and both hold addresses. *)

From Stdlib Require Import ZArith QArith Ascii String.
From stdpp Require Import gmap strings list fin_maps.

Set Default Proof Using "Type".

(** ** Exceptions *)

Inductive exn : Type :=
| ZeroDivisionError
| SyntaxError (msg : string)
| OtherException (msg : string).

Inductive result (A : Type) : Type :=
| Ok (a : A)
| Raise (e : exn).
Arguments Ok {A} a.
Arguments Raise {A} e.

#[global] Instance result_ret : MRet result := λ A a, Ok a.
#[global] Instance result_bind : MBind result := λ A B k r,
  match r with
  | Ok a => k a
  | Raise e => Raise e
  end.

#[global] Instance result_fmap : FMap result := λ A B f r,
  match r with
  | Ok a => Ok (f a)
  | Raise e => Raise e
  end.

(** [a / b] on two [int]s. *)
Definition truediv (a b : nat) : result Q :=
  if decide (b = 0) then Raise ZeroDivisionError
  else Ok (inject_Z (Z.of_nat a) / inject_Z (Z.of_nat b))%Q.

(** ** Syntax trees

    What [ast.parse] returns, as far as the visitor can tell nodes apart:
    the three definition statements, the three expression kinds it records,
    and every other node.  [children] are the child nodes in the order
    [ast.NodeVisitor.generic_visit] walks them ([ast.iter_fields]); operator
    tokens such as [ast.Eq()] or [ast.And()] have no children and no visitor
    method and are left out. *)

Inductive unaryop : Type := Invert | Not | UAdd | USub.

#[global] Instance unaryop_eq_dec : EqDecision unaryop.
Proof. solve_decision. Defined.

#[local] Unset Elimination Schemes.
Inductive AST : Type :=
| ClassDef (name : string) (lineno : Z) (end_lineno : option Z) (children : list AST)
| FunctionDef (name : string) (lineno : Z) (end_lineno : option Z) (children : list AST)
| AsyncFunctionDef (name : string) (lineno : Z) (end_lineno : option Z) (children : list AST)
| Compare (lineno : Z) (children : list AST)
| BoolOp (lineno : Z) (children : list AST)
| UnaryOp (op : unaryop) (lineno : Z) (children : list AST)
| Other (children : list AST).
#[local] Set Elimination Schemes.

(** Readable names for the nodes the examples use. *)
Definition Mod (body : list AST) : AST := Other body.
Definition If (test : AST) (body : list AST) : AST := Other (test :: body).
Definition Return (value : AST) : AST := Other [value].
Definition Name : AST := Other [].
Definition Constant : AST := Other [].
Definition Pass : AST := Other [].
Definition arguments (args : list AST) : AST := Other args.
Definition arg : AST := Other [].
Definition Assign (target value : AST) : AST := Other [target; value].

(** Induction over trees with the hypothesis on every child. *)
Section AST_induction.
Variable P : AST → Prop.
Hypothesis HClassDef : ∀ n l e ch, Forall P ch → P (ClassDef n l e ch).
Hypothesis HFunctionDef : ∀ n l e ch, Forall P ch → P (FunctionDef n l e ch).
Hypothesis HAsync : ∀ n l e ch, Forall P ch → P (AsyncFunctionDef n l e ch).
Hypothesis HCompare : ∀ l ch, Forall P ch → P (Compare l ch).
Hypothesis HBoolOp : ∀ l ch, Forall P ch → P (BoolOp l ch).
Hypothesis HUnaryOp : ∀ op l ch, Forall P ch → P (UnaryOp op l ch).
Hypothesis HOther : ∀ ch, Forall P ch → P (Other ch).

Fixpoint AST_forall_ind (t : AST) : P t :=
  let children_ind := fix go (ch : list AST) : Forall P ch :=
    match ch with
    | [] => Forall_nil_2 P
    | c :: ch' => Forall_cons_2 P c ch' (AST_forall_ind c) (go ch')
    end in
  match t with
  | ClassDef n l e ch => HClassDef n l e ch (children_ind ch)
  | FunctionDef n l e ch => HFunctionDef n l e ch (children_ind ch)
  | AsyncFunctionDef n l e ch => HAsync n l e ch (children_ind ch)
  | Compare l ch => HCompare l ch (children_ind ch)
  | BoolOp l ch => HBoolOp l ch (children_ind ch)
  | UnaryOp op l ch => HUnaryOp op l ch (children_ind ch)
  | Other ch => HOther ch (children_ind ch)
  end.
End AST_induction.

(** ** analyzer.py: [ClassInfo] *)

Module ClassInfo.
Record t : Type := mk {
  name : string;
  start_line : Z;
  end_line : Z;
  methods : gmap string (Z * Z);
  conditions : nat;
  covered_conditions : nat
}.

Definition init (name : string) (start_line end_line : Z) : t :=
  mk name start_line end_line ∅ 0 0.

Definition add_method (self : t) (name : string) (start_line end_line : Z) : t :=
  mk (ClassInfo.name self) (ClassInfo.start_line self) (ClassInfo.end_line self)
     (<[name := (start_line, end_line)]> (methods self))
     (conditions self) (covered_conditions self).

(** [self.conditions += 1] *)
Definition incr_conditions (self : t) : t :=
  mk (name self) (start_line self) (end_line self) (methods self)
     (S (conditions self)) (covered_conditions self).

(** [self.covered_conditions = n] *)
Definition set_covered_conditions (n : nat) (self : t) : t :=
  mk (name self) (start_line self) (end_line self) (methods self)
     (conditions self) n.
End ClassInfo.

(** [_get_node_lines]: [lineno] with default 0 (always present on the nodes
    the visitor asks about), [end_lineno] with default [start_line]. *)
Definition _get_node_lines (lineno : Z) (end_lineno : option Z) : Z * Z :=
  let start_line := lineno in
  let end_line := default start_line end_lineno in
  (start_line, end_line).

(** ** analyzer.py: [ConditionVisitor] *)

Module ConditionVisitor.
(** [heap] holds the [ClassInfo] objects created so far; an object's
    address is its index.  [classes] and [current_class] hold addresses. *)
Record t : Type := mk {
  conditions : gmap Z AST;
  current_class : option nat;
  classes : gmap string nat;
  heap : list ClassInfo.t
}.

Definition init : t := mk ∅ None ∅ [].

Definition set_current_class (c : option nat) (self : t) : t :=
  mk (conditions self) c (classes self) (heap self).

(** [self.conditions[lineno] = node] *)
Definition record_condition (lineno : Z) (node : AST) (self : t) : t :=
  mk (<[lineno := node]> (conditions self)) (current_class self)
     (classes self) (heap self).

(** [if self.current_class: <update the object>] *)
Definition update_current_class (f : ClassInfo.t → ClassInfo.t) (self : t) : t :=
  match current_class self with
  | Some a => mk (conditions self) (current_class self) (classes self)
                 (alter f a (heap self))
  | None => self
  end.

(** [class_info = ClassInfo(...); self.classes[name] = class_info;
    self.current_class = class_info] *)
Definition enter_class (name : string) (start_line end_line : Z) (self : t) : t :=
  let a := length (heap self) in
  mk (conditions self) (Some a) (<[name := a]> (classes self))
     (heap self ++ [ClassInfo.init name start_line end_line]).

(** [visit] dispatches on the node's class; a class with no [visit_X]
    method goes to [generic_visit], which visits every child in order. *)
Fixpoint visit (node : AST) (self : t) {struct node} : t :=
  let generic_visit (children : list AST) (self : t) : t :=
    foldl (λ self child, visit child self) self children in
  match node with
  | ClassDef name lineno end_lineno children =>
      let '(start_line, end_line) := _get_node_lines lineno end_lineno in
      let self := enter_class name start_line end_line self in
      let self := generic_visit children self in
      set_current_class None self
  | FunctionDef name lineno end_lineno children =>
      let '(start_line, end_line) := _get_node_lines lineno end_lineno in
      let self :=
        update_current_class
          (λ c, ClassInfo.add_method c name start_line end_line) self in
      generic_visit children self
  | Compare lineno children =>
      let self := record_condition lineno node self in
      let self := update_current_class ClassInfo.incr_conditions self in
      generic_visit children self
  | BoolOp lineno children =>
      let self := record_condition lineno node self in
      let self := update_current_class ClassInfo.incr_conditions self in
      generic_visit children self
  | UnaryOp op lineno children =>
      let self :=
        match op with
        | Not =>
            let self := record_condition lineno node self in
            update_current_class ClassInfo.incr_conditions self
        | _ => self
        end in
      generic_visit children self
  | AsyncFunctionDef _ _ _ children => generic_visit children self
  | Other children => generic_visit children self
  end.

Definition generic_visit (children : list AST) (self : t) : t :=
  foldl (λ self child, visit child self) self children.

(** The [classes] dict as the caller reads it: name to object. *)
Definition classes_view (self : t) : gmap string ClassInfo.t :=
  omap (λ a, heap self !! a) (classes self).
End ConditionVisitor.

(** ** analyzer.py: the dicts [get_class_coverage] builds *)

(** One entry of a class's ['methods'] dict. *)
Module MethodCoverage.
Record t : Type := mk {
  total_conditions : nat;
  covered_conditions : nat;
  coverage_percentage : Q
}.
End MethodCoverage.

(** One entry of the dict [get_class_coverage] returns. *)
Module ClassCoverage.
Record t : Type := mk {
  total_conditions : nat;
  covered_conditions : nat;
  coverage_percentage : Q;
  methods : gmap string MethodCoverage.t
}.
End ClassCoverage.

(** ** analyzer.py: [ConditionCoverageAnalyzer] *)

Module ConditionCoverageAnalyzer.
Record t : Type := mk {
  source_code : string;
  tree : AST;
  conditions : gmap Z AST;
  covered_conditions : gset Z;
  classes : gmap string ClassInfo.t
}.

(** [__init__] once [ast.parse] has returned [tree]. *)
Definition of_tree (source_code : string) (tree : AST) : t :=
  mk source_code tree ∅ ∅ ∅.

Section Init.
Variable ast_parse : string → result AST.

Definition init (source_code : string) : result t :=
  tree ← ast_parse source_code;
  Ok (of_tree source_code tree).
End Init.

Definition find_conditions (self : t) : nat * t :=
  let visitor := ConditionVisitor.init in
  let visitor := ConditionVisitor.visit (tree self) visitor in
  let self :=
    mk (source_code self) (tree self)
       (ConditionVisitor.conditions visitor)
       (covered_conditions self)
       (ConditionVisitor.classes_view visitor) in
  (size (conditions self), self).

(** [start_line <= line_no <= end_line] *)
Definition in_range (start_line end_line line_no : Z) : bool :=
  (start_line <=? line_no)%Z && (line_no <=? end_line)%Z.

(** The file-level loop of [analyze_file]: one step per key of
    [self.conditions], on [(covered_conditions, self.covered_conditions)]. *)
Definition file_step (executed_lines : gset Z)
    (acc : nat * gset Z) (line_no : Z) : nat * gset Z :=
  if bool_decide (line_no ∈ executed_lines)
  then (S acc.1, {[line_no]} ∪ acc.2)
  else acc.

(** The inner loop of the class-level update, on [class_covered]. *)
Definition class_step (executed_lines : gset Z) (class_info : ClassInfo.t)
    (class_covered : nat) (line_no : Z) : nat :=
  if bool_decide (line_no ∈ executed_lines)
     && in_range (ClassInfo.start_line class_info)
                 (ClassInfo.end_line class_info) line_no
  then S class_covered
  else class_covered.

(** [coverage_data] is a dict; only its key ['executed_lines'] is read. *)
Definition analyze_file (self : t) (coverage_data : gmap string (gset Z))
    : (nat * nat) * t :=
  let '(total_conditions, self) := find_conditions self in
  let executed_lines := default ∅ (coverage_data !! "executed_lines") in
  let keys := (map_to_list (conditions self)).*1 in
  let '(covered_conditions, covered_set) :=
    foldl (file_step executed_lines) (0, ConditionCoverageAnalyzer.covered_conditions self) keys in
  let classes :=
    (λ class_info,
       let class_covered := foldl (class_step executed_lines class_info) 0 keys in
       ClassInfo.set_covered_conditions class_covered class_info)
    <$> classes self in
  ((total_conditions, covered_conditions),
   mk (source_code self) (tree self) (conditions self) covered_set classes).

(** The loop over [self.conditions.items()] for one method, on
    [(method_conditions, method_covered)]. *)
Definition method_step (self : t) (start_line end_line : Z)
    (acc : nat * nat) (line_no : Z) : nat * nat :=
  if in_range start_line end_line line_no
  then (S acc.1,
        if bool_decide (line_no ∈ ConditionCoverageAnalyzer.covered_conditions self)
        then S acc.2 else acc.2)
  else acc.

Definition method_entry (self : t) (range : Z * Z) : result MethodCoverage.t :=
  let '(start_line, end_line) := range in
  let '(method_conditions, method_covered) :=
    foldl (method_step self start_line end_line) (0, 0)
          (map_to_list (conditions self)).*1 in
  method_coverage ←
    (if decide (method_conditions = 0) then Ok 100%Q
     else q ← truediv method_covered method_conditions; Ok (q * 100)%Q);
  Ok (MethodCoverage.mk method_conditions method_covered method_coverage).

(** The loop over [class_info.methods.items()], filling ['methods']. *)
Definition methods_loop (self : t) (items : list (string * (Z * Z)))
    : result (gmap string MethodCoverage.t) :=
  foldl (λ acc item,
           methods ← acc;
           entry ← method_entry self item.2;
           Ok (<[item.1 := entry]> methods))
        (Ok ∅) items.

Definition class_entry (self : t) (class_info : ClassInfo.t) : result ClassCoverage.t :=
  coverage_percent ←
    (if decide (ClassInfo.conditions class_info = 0) then Ok 100%Q
     else q ← truediv (ClassInfo.covered_conditions class_info)
                      (ClassInfo.conditions class_info);
          Ok (q * 100)%Q);
  methods ← methods_loop self (map_to_list (ClassInfo.methods class_info));
  Ok (ClassCoverage.mk (ClassInfo.conditions class_info)
                        (ClassInfo.covered_conditions class_info)
                        coverage_percent methods).

Definition get_class_coverage (self : t) : result (gmap string ClassCoverage.t) :=
  foldl (λ acc item,
           class_coverage ← acc;
           entry ← class_entry self item.2;
           Ok (<[item.1 := entry]> class_coverage))
        (Ok ∅) (map_to_list (classes self)).
End ConditionCoverageAnalyzer.

(** ** Python strings, as plugin.py uses them *)

(** [s.startswith(prefix)] *)
Definition startswith (prefix s : string) : bool := String.prefix prefix s.

(** [s.endswith(suffix)] *)
Fixpoint endswith (suffix s : string) : bool :=
  String.eqb suffix s
  || match s with
     | EmptyString => false
     | String _ s' => endswith suffix s'
     end.

(** [s.split(sep)] for a separator of one character: the pieces between the
    separators, in order; never an empty list. *)
Fixpoint split (sep : Ascii.ascii) (s : string) : list string :=
  match s with
  | EmptyString => [EmptyString]
  | String c s' =>
      if Ascii.eqb c sep then EmptyString :: split sep s'
      else
        match split sep s' with
        | piece :: pieces => String c piece :: pieces
        | [] => [String c EmptyString]
        end
  end.

(** [pieces[i]], which raises [IndexError] out of range. *)
Definition getitem (pieces : list string) (i : nat) : result string :=
  match pieces !! i with
  | Some piece => Ok piece
  | None => Raise (OtherException "IndexError")
  end.

(** ** plugin.py: [ConditionCoveragePlugin] *)

Module ConditionCoveragePlugin.
(** A value of [self.condition_coverage_results], and of
    [report_data['files']], which has the same four keys. *)
Record file_result : Type := mk_file_result {
  condition_coverage : Q;
  total_conditions : nat;
  covered_conditions : nat;
  classes : gmap string ClassCoverage.t
}.

(** What the loop of [_calculate_condition_coverage] hands to [logger], by
    call site: the warning, the four [logger.info] calls, the error. *)
Inductive log_record : Type :=
| Warning_no_coverage_data (file_path : string)
| Info_file (file_path : string)
| Info_total_conditions (total : nat)
| Info_covered_conditions (covered : nat)
| Info_coverage (condition_cov : Q)
| Error_processing (file_path : string) (e : exn).

Record report_data : Type := mk_report_data {
  files : gmap string file_result;
  total_condition_coverage : Q
}.

Section Environment.
(** The collaborators: [os.path.abspath] and [os.path.relpath],
    [self.coverage_data.measured_files()] and [.lines(path)],
    [open(path).read()] and [ast.parse]. *)
Variable abspath : string → string.
Variable relpath : string → string.
Variable measured_files : gset string.
Variable coverage_lines : string → option (list Z).
Variable read_file : string → result string.
Variable ast_parse : string → result AST.

(** [x or set()]: [None] and the empty list are falsy. *)
Definition lines_or_empty (lines : option (list Z)) : gset Z :=
  match lines with
  | Some (l :: ls) => list_to_set (l :: ls)
  | _ => ∅
  end.

(** [(covered / total * 100) if total > 0 else 100.0] *)
Definition condition_cov (total covered : nat) : result Q :=
  if decide (0 < total) then q ← truediv covered total; Ok (q * 100)%Q
  else Ok 100%Q.

(** The [try] block once the analyzer is built: from the executed lines
    to the value stored for the file. *)
Definition measure (analyzer : ConditionCoverageAnalyzer.t) (lines : gset Z)
    : result file_result :=
  let file_coverage : gmap string (gset Z) := {["executed_lines" := lines]} in
  let '((total, covered), analyzer) :=
    ConditionCoverageAnalyzer.analyze_file analyzer file_coverage in
  condition_cov ← condition_cov total covered;
  class_coverage ← ConditionCoverageAnalyzer.get_class_coverage analyzer;
  Ok (mk_file_result condition_cov total covered class_coverage).

(** The whole [try] block. *)
Definition process_file (file_path abs_path : string) : result file_result :=
  source ← read_file file_path;
  analyzer ← ConditionCoverageAnalyzer.init ast_parse source;
  let lines := lines_or_empty (coverage_lines abs_path) in
  measure analyzer lines.

(** One turn of the [for file_path in files_to_analyze] loop, on
    [(self.condition_coverage_results, the log)]; [except Exception]
    catches whatever the [try] block raised. *)
Definition calculate_step
    (st : gmap string file_result * list log_record) (file_path : string)
    : gmap string file_result * list log_record :=
  let abs_path := abspath file_path in
  if bool_decide (abs_path ∉ measured_files)
  then (st.1, st.2 ++ [Warning_no_coverage_data file_path])
  else
    match process_file file_path abs_path with
    | Ok r =>
        (<[file_path := r]> st.1,
         st.2 ++ [Info_file file_path;
                  Info_total_conditions (total_conditions r);
                  Info_covered_conditions (covered_conditions r);
                  Info_coverage (condition_coverage r)])
    | Raise e => (st.1, st.2 ++ [Error_processing file_path e])
    end.

Definition _calculate_condition_coverage (files_to_analyze : list string)
    (st : gmap string file_result * list log_record)
    : gmap string file_result * list log_record :=
  foldl calculate_step st files_to_analyze.

(** One turn of the loop of [_generate_report], on
    [(total_conditions, covered_conditions, report_data['files'])]. *)
Definition report_step (acc : nat * nat * gmap string file_result)
    (item : string * file_result) : nat * nat * gmap string file_result :=
  let '(total_conditions, covered_conditions, files) := acc in
  let '(file_path, data) := item in
  let relative_path := relpath file_path in
  (total_conditions + ConditionCoveragePlugin.total_conditions data,
   covered_conditions + ConditionCoveragePlugin.covered_conditions data,
   <[relative_path :=
       mk_file_result (condition_coverage data)
                      (ConditionCoveragePlugin.total_conditions data)
                      (ConditionCoveragePlugin.covered_conditions data)
                      (classes data)]> files).

(** The [report_data] of [_generate_report], plugin.py lines 115 to 137: the
    two sums, the [files] table and the top-level figure.  [Ok] says that
    these lines raised nothing.  The directory the function makes before
    (line 113) and the two files it writes after (lines 139 to 148) are
    calls to the operating system; [_generate_report_io] below puts them
    around this definition. *)
Definition _generate_report (condition_coverage_results : gmap string file_result)
    : result report_data :=
  let '(total_conditions, covered_conditions, files) :=
    foldl report_step (0, 0, ∅) (map_to_list condition_coverage_results) in
  let total_condition_coverage := 0%Q in
  total_condition_coverage ←
    (if decide (0 < total_conditions)
     then q ← truediv covered_conditions total_conditions; Ok (q * 100)%Q
     else Ok total_condition_coverage);
  Ok (mk_report_data files total_condition_coverage).
End Environment.

(** The loop of [pytest_sessionstart] over [session.config.args], on
    [self.package_name]: the first argument that starts with [--cov=] sets
    it and ends the loop. *)
Fixpoint sessionstart_loop (args : list string) (package_name : option string)
    : result (option string) :=
  match args with
  | [] => Ok package_name
  | arg :: args' =>
      if startswith "--cov=" arg
      then piece ← getitem (split "="%char arg) 1; Ok (Some piece)
      else sessionstart_loop args' package_name
  end.

(** [pytest_sessionstart], up to the [yield]; an empty list is falsy. *)
Definition pytest_sessionstart (args : list string) (package_name : option string)
    : result (option string) :=
  match args with
  | [] => Ok package_name
  | _ :: _ => sessionstart_loop args package_name
  end.

(** [not self.package_name]: [None] and the empty string are falsy. *)
Definition base_path (package_name : option string) : string :=
  match package_name with
  | None => "."
  | Some EmptyString => "."
  | Some package_name => package_name
  end.

(** The severity expression of [_generate_html_report], written out once
    for the file rows, once for the class rows and once for the method rows:
    [coverage-good] if [coverage >= 80], else [coverage-warning] if
    [coverage >= 60], else [coverage-bad]. *)
Definition coverage_class (coverage : Q) : string :=
  if Qle_bool 80 coverage then "coverage-good"
  else if Qle_bool 60 coverage then "coverage-warning"
  else "coverage-bad".

(** What [CoverageData().read()] leaves in [self.coverage_data], as far as
    the plugin reads it: [measured_files()] and [lines(path)]. *)
Record CoverageData : Type := mk_CoverageData {
  measured_files : gset string;
  lines : string → option (list Z)
}.

Section Session.
(** The operating system and the libraries, as the plugin calls them.
    - [os.walk(base)], as the [(root, files)] it yields in order (the
      directory names are not read; with its default [onerror] it skips
      what it cannot list); [os.path.join], [os.path.abspath] and
      [os.path.relpath], functions on strings.
    - [CoverageData()] followed by [.read()], which raises or yields the
      data; [open(path).read()] and [ast.parse].
    - [os.makedirs(path, exist_ok=True)]; [json.dump] into the file it is
      given the path of; [_generate_html_report] followed by the write of
      its text.  Each raises or returns. *)
Variable os_walk : string → list (string * list string).
Variable join : string → string → string.
Variable abspath : string → string.
Variable relpath : string → string.
Variable coverage_read : result CoverageData.
Variable read_file : string → result string.
Variable ast_parse : string → result AST.
Variable os_makedirs : string → result unit.
Variable json_dump : string → report_data → result unit.
Variable write_html : string → report_data → result unit.

(** The inner loop of [_find_package_files], over the files of one
    directory. *)
Definition collect_files (root : string) (python_files : list string)
    (files : list string) : list string :=
  foldl (λ python_files file,
           if endswith ".py" file
           then python_files ++ [abspath (join root file)]
           else python_files)
        python_files files.

Definition _find_package_files (package_name : option string) : list string :=
  foldl (λ python_files item, collect_files item.1 python_files item.2)
        [] (os_walk (base_path package_name)).

(** [_generate_report] whole, lines 110 to 152: the directory, the
    [report_data], the JSON file, the HTML file.  None of the calls is
    inside a [try]: what one raises, the function raises. *)
Definition _generate_report_io
    (condition_coverage_results : gmap string file_result) : result unit :=
  let report_dir := "htmlcov" in
  _ ← os_makedirs report_dir;
  report_data ← _generate_report relpath condition_coverage_results;
  _ ← json_dump (join report_dir "condition_coverage.json") report_data;
  _ ← write_html (join report_dir "condition_coverage.html") report_data;
  Ok ().

(** [pytest_sessionfinish], up to the [yield]: the coverage data is read,
    [_calculate_condition_coverage] runs on the files of the package from
    the empty results of [__init__], and [_generate_report] writes the
    report.  The value is what the loop logged. *)
Definition pytest_sessionfinish (package_name : option string)
    : result (list log_record) :=
  coverage_data ← coverage_read;
  let files_to_analyze := _find_package_files package_name in
  let '(condition_coverage_results, log) :=
    _calculate_condition_coverage abspath (measured_files coverage_data)
      (lines coverage_data) read_file ast_parse files_to_analyze (∅, []) in
  _ ← _generate_report_io condition_coverage_results;
  Ok log.
End Session.
End ConditionCoveragePlugin.

(** * Auxiliary definitions

    Closed forms of the loops, functions on trees and example inputs, for
    the statements below. *)

(** ** The loops in closed form *)

(** The number of elements of a list that pass a test. *)
Fixpoint count {A : Type} (p : A → bool) (l : list A) : nat :=
  match l with
  | [] => 0
  | x :: l' => (if p x then 1 else 0) + count p l'
  end.

(** A loop that stores [g] of every item under the item's key. *)
Definition fill {K : Type} `{Countable K} {A B : Type}
    (g : A → B) (acc : gmap K B) (items : list (K * A)) : gmap K B :=
  foldl (λ acc item, <[item.1 := g item.2]> acc) acc items.

(** [covered / total * 100], or [100.0] when [total] is 0. *)
Definition percentage (covered total : nat) : Q :=
  if decide (total = 0) then 100%Q
  else (inject_Z (Z.of_nat covered) / inject_Z (Z.of_nat total) * 100)%Q.

(** The keys of [self.conditions], in the order the loops meet them. *)
Definition condition_lines (self : ConditionCoverageAnalyzer.t) : list Z :=
  (map_to_list (ConditionCoverageAnalyzer.conditions self)).*1.

(** What [get_class_coverage] stores for a method and for a class. *)
Definition method_report (self : ConditionCoverageAnalyzer.t) (range : Z * Z)
    : MethodCoverage.t :=
  let total := count (ConditionCoverageAnalyzer.in_range range.1 range.2)
                     (condition_lines self) in
  let covered :=
    count (λ l, ConditionCoverageAnalyzer.in_range range.1 range.2 l
                && bool_decide (l ∈ ConditionCoverageAnalyzer.covered_conditions self))
          (condition_lines self) in
  MethodCoverage.mk total covered (percentage covered total).

Definition class_report (self : ConditionCoverageAnalyzer.t)
    (class_info : ClassInfo.t) : ClassCoverage.t :=
  ClassCoverage.mk
    (ClassInfo.conditions class_info)
    (ClassInfo.covered_conditions class_info)
    (percentage (ClassInfo.covered_conditions class_info)
                (ClassInfo.conditions class_info))
    (method_report self <$> ClassInfo.methods class_info).

(** The analyzer after [find_conditions]. *)
Definition extracted (self : ConditionCoverageAnalyzer.t) : ConditionCoverageAnalyzer.t :=
  (ConditionCoverageAnalyzer.find_conditions self).2.

(** [coverage_data.get('executed_lines', set())] *)
Definition executed (coverage_data : gmap string (gset Z)) : gset Z :=
  default ∅ (coverage_data !! "executed_lines").

(** The number of recorded lines that ran, and of those inside a class's
    range. *)
Definition file_covered (E : gset Z) (keys : list Z) : nat :=
  count (λ l, bool_decide (l ∈ E)) keys.

Definition class_covered (E : gset Z) (class_info : ClassInfo.t) (keys : list Z) : nat :=
  count (λ l, bool_decide (l ∈ E)
              && ConditionCoverageAnalyzer.in_range
                   (ClassInfo.start_line class_info)
                   (ClassInfo.end_line class_info) l) keys.

(** What [measure] stores for a class of the extracted table, given the
    analyzer [self'] that [analyze_file] leaves behind. *)
Definition measured_class (self' : ConditionCoverageAnalyzer.t) (E : gset Z)
    (keys : list Z) (class_info : ClassInfo.t) : ClassCoverage.t :=
  class_report self'
    (ClassInfo.set_covered_conditions (class_covered E class_info keys) class_info).

(** The count the specification gives as a class's total: the recorded
    lines inside the class's range. *)
Definition lines_in_class (self : ConditionCoverageAnalyzer.t)
    (class_info : ClassInfo.t) : nat :=
  count (ConditionCoverageAnalyzer.in_range (ClassInfo.start_line class_info)
                                            (ClassInfo.end_line class_info))
        (condition_lines self).

(** The sums the report divides. *)
Definition grand_total (results : gmap string ConditionCoveragePlugin.file_result) : nat :=
  sum_list (ConditionCoveragePlugin.total_conditions <$> (map_to_list results).*2).

Definition grand_covered (results : gmap string ConditionCoveragePlugin.file_result) : nat :=
  sum_list (ConditionCoveragePlugin.covered_conditions <$> (map_to_list results).*2).

Section per_file_outcome.
Variable abspath : string → string.
Variable measured_files : gset string.
Variable coverage_lines : string → option (list Z).
Variable read_file : string → result string.
Variable ast_parse : string → result AST.

(** What one turn of the loop of [_calculate_condition_coverage] stores for
    a file, if anything, and what it logs. *)
Definition stored (file_path : string) : option ConditionCoveragePlugin.file_result :=
  if bool_decide (abspath file_path ∉ measured_files) then None
  else
    match ConditionCoveragePlugin.process_file coverage_lines read_file ast_parse
            file_path (abspath file_path) with
    | Ok r => Some r
    | Raise _ => None
    end.

Definition logged (file_path : string) : list ConditionCoveragePlugin.log_record :=
  if bool_decide (abspath file_path ∉ measured_files)
  then [ConditionCoveragePlugin.Warning_no_coverage_data file_path]
  else
    match ConditionCoveragePlugin.process_file coverage_lines read_file ast_parse
            file_path (abspath file_path) with
    | Ok r =>
        [ConditionCoveragePlugin.Info_file file_path;
         ConditionCoveragePlugin.Info_total_conditions
           (ConditionCoveragePlugin.total_conditions r);
         ConditionCoveragePlugin.Info_covered_conditions
           (ConditionCoveragePlugin.covered_conditions r);
         ConditionCoveragePlugin.Info_coverage
           (ConditionCoveragePlugin.condition_coverage r)]
    | Raise e => [ConditionCoveragePlugin.Error_processing file_path e]
    end.
End per_file_outcome.

(** ** Functions on trees *)

(** The lines of the nodes the visitor records, in visiting order: every
    [Compare], [BoolOp] and [UnaryOp] with [Not], wherever it stands. *)
Fixpoint condition_node_lines (t : AST) : list Z :=
  match t with
  | Compare l ch | BoolOp l ch | UnaryOp Not l ch =>
      l :: flat_map condition_node_lines ch
  | UnaryOp _ _ ch | ClassDef _ _ _ ch | FunctionDef _ _ _ ch
  | AsyncFunctionDef _ _ _ ch | Other ch =>
      flat_map condition_node_lines ch
  end.

(** The names of the [FunctionDef] nodes of a tree. *)
Fixpoint def_names (t : AST) : list string :=
  match t with
  | FunctionDef n _ _ ch => n :: flat_map def_names ch
  | ClassDef _ _ _ ch | AsyncFunctionDef _ _ _ ch | Compare _ ch | BoolOp _ ch
  | UnaryOp _ _ ch | Other ch =>
      flat_map def_names ch
  end.

(** The method-table entries the [FunctionDef] nodes of a tree write, in
    visiting order. *)
Fixpoint def_entries (t : AST) : list (string * (Z * Z)) :=
  match t with
  | FunctionDef n l e ch => (n, _get_node_lines l e) :: flat_map def_entries ch
  | ClassDef _ _ _ ch | AsyncFunctionDef _ _ _ ch | Compare _ ch | BoolOp _ ch
  | UnaryOp _ _ ch | Other ch =>
      flat_map def_entries ch
  end.

(** Does a tree hold a [ClassDef]? *)
Fixpoint has_ClassDef (t : AST) : bool :=
  match t with
  | ClassDef _ _ _ _ => true
  | FunctionDef _ _ _ ch | AsyncFunctionDef _ _ _ ch | Compare _ ch | BoolOp _ ch
  | UnaryOp _ _ ch | Other ch =>
      existsb has_ClassDef ch
  end.

(** ** Invariants of the visitor *)

(** Every method name of every class object is one of [N]. *)
Definition methods_within (N : list string) (h : list ClassInfo.t) : Prop :=
  ∀ a class_info m,
    h !! a = Some class_info →
    is_Some (ClassInfo.methods class_info !! m) → m ∈ N.

(** A class object after [entries] were written to its method table and its
    counter was incremented [k] times. *)
Definition class_after (entries : list (string * (Z * Z))) (k : nat)
    (class_info : ClassInfo.t) : ClassInfo.t :=
  ClassInfo.mk (ClassInfo.name class_info)
               (ClassInfo.start_line class_info)
               (ClassInfo.end_line class_info)
               (fill id (ClassInfo.methods class_info) entries)
               (ClassInfo.conditions class_info + k)
               (ClassInfo.covered_conditions class_info).

(** The visitor with the same current class and [classes], and with the
    current object changed by [f]. *)
Definition inside_class (a : nat) (f : ClassInfo.t → ClassInfo.t)
    (before after : ConditionVisitor.t) : Prop :=
  ConditionVisitor.current_class after = Some a
  ∧ ConditionVisitor.classes after = ConditionVisitor.classes before
  ∧ ConditionVisitor.heap after = alter f a (ConditionVisitor.heap before).

(** ** Example sources

    Each tree is what [ast.parse] returns for the text quoted above it,
    with the line numbers of the text. *)

Definition nl : string := String (Ascii.ascii_of_nat 10) EmptyString.

(**
<<
if a == b and c:
    pass
>> *)
Definition comparison_and_boolop : AST :=
  Mod [If (BoolOp 1 [Compare 1 [Name; Name]; Name]) [Pass]].

(**
<<
class Foo:
    def bar(self):
        if a == b and c:
            pass
>> *)
Definition comparison_and_boolop_in_method : AST :=
  Mod [ClassDef "Foo" 1 (Some 4%Z)
         [FunctionDef "bar" 2 (Some 4%Z)
            [arguments [arg];
             If (BoolOp 3 [Compare 3 [Name; Name]; Name]) [Pass]]]].

(**
<<
class Foo:
    def bar(self):
        if a and not b:
            pass
>> *)
Definition boolop_and_not_in_method : AST :=
  Mod [ClassDef "Foo" 1 (Some 4%Z)
         [FunctionDef "bar" 2 (Some 4%Z)
            [arguments [arg];
             If (BoolOp 3 [Name; UnaryOp Not 3 [Name]]) [Pass]]]].

(**
<<
class A:
    async def m(self):
        if x == 1:
            pass
>> *)
Definition class_with_async_method : AST :=
  Mod [ClassDef "A" 1 (Some 4%Z)
         [AsyncFunctionDef "m" 2 (Some 4%Z)
            [arguments [arg]; If (Compare 3 [Name; Constant]) [Pass]]]].

(**
<<
class A:
    class B:
        pass
    async def m(self):
        if x == 1:
            pass
>> *)
Definition async_method_after_nested_class : AST :=
  Mod [ClassDef "A" 1 (Some 6%Z)
         [ClassDef "B" 2 (Some 3%Z) [Pass];
          AsyncFunctionDef "m" 4 (Some 6%Z)
            [arguments [arg]; If (Compare 5 [Name; Constant]) [Pass]]]].

(**
<<
class A:
    async def m(self):
        class B:
            pass
        if x == 1:
            pass
>> *)
Definition class_inside_async_method : AST :=
  Mod [ClassDef "A" 1 (Some 6%Z)
         [AsyncFunctionDef "m" 2 (Some 6%Z)
            [arguments [arg];
             ClassDef "B" 3 (Some 4%Z) [Pass];
             If (Compare 5 [Name; Constant]) [Pass]]]].

(**
<<
class A:
    class B:
        pass
    def m(self):
        if x == 1:
            pass
>> *)
Definition method_after_nested_class : AST :=
  Mod [ClassDef "A" 1 (Some 6%Z)
         [ClassDef "B" 2 (Some 3%Z) [Pass];
          FunctionDef "m" 4 (Some 6%Z)
            [arguments [arg]; If (Compare 5 [Name; Constant]) [Pass]]]].

(**
<<
class A:
    class B:
        def f(self):
            if x == 1:
                pass
>> *)
Definition condition_in_nested_class : AST :=
  Mod [ClassDef "A" 1 (Some 5%Z)
         [ClassDef "B" 2 (Some 5%Z)
            [FunctionDef "f" 3 (Some 5%Z)
               [arguments [arg]; If (Compare 4 [Name; Constant]) [Pass]]]]].

(**
<<
class A:
    def m(self):
        def inner():
            return x == 1
        return inner
>> *)
Definition condition_in_nested_def : AST :=
  Mod [ClassDef "A" 1 (Some 5%Z)
         [FunctionDef "m" 2 (Some 5%Z)
            [arguments [arg];
             FunctionDef "inner" 3 (Some 4%Z)
               [arguments []; Return (Compare 4 [Name; Constant])];
             Return Name]]].

(** A batch of two measured files: the text of the first, [if x >], does
    not parse; the second holds [x = 1]. *)
Definition batch_read_file (file_path : string) : result string :=
  if decide (file_path = "/pkg/bad.py") then Ok "if x >" else Ok "x = 1".

Definition batch_ast_parse (source : string) : result AST :=
  if decide (source = "if x >") then Raise (SyntaxError "invalid syntax")
  else Ok (Mod [Assign Name Constant]).

Definition batch_measured_files : gset string :=
  {["/pkg/bad.py"]} ∪ {["/pkg/good.py"]}.

(** ** Definitions for the further properties *)

(** The nodes of a tree, the root first. *)
Fixpoint nodes (t : AST) : list AST :=
  t :: match t with
       | ClassDef _ _ _ ch | FunctionDef _ _ _ ch | AsyncFunctionDef _ _ _ ch
       | Compare _ ch | BoolOp _ ch | UnaryOp _ _ ch | Other ch =>
           flat_map nodes ch
       end.

(** The name and line range of every [ClassDef] node of a tree, in visiting
    order. *)
Fixpoint class_entries (t : AST) : list (string * (Z * Z)) :=
  match t with
  | ClassDef n l e ch => (n, _get_node_lines l e) :: flat_map class_entries ch
  | FunctionDef _ _ _ ch | AsyncFunctionDef _ _ _ ch | Compare _ ch | BoolOp _ ch
  | UnaryOp _ _ ch | Other ch =>
      flat_map class_entries ch
  end.

(** What the visitor requires of a node for an invariant to survive it. *)
Definition class_entry_in (N : list (string * (Z * Z))) (x : AST) : Prop :=
  match x with
  | ClassDef n l e _ => (n, _get_node_lines l e) ∈ N
  | _ => True
  end.

Definition def_entry_in (M : list (string * (Z * Z))) (x : AST) : Prop :=
  match x with
  | FunctionDef n l e _ => (n, _get_node_lines l e) ∈ M
  | _ => True
  end.

Definition not_class_named (n : string) (x : AST) : Prop :=
  match x with
  | ClassDef n' _ _ _ => n' ≠ n
  | _ => True
  end.

(** Every name of [classes] leads to an object of that name. *)
Definition classes_valid (self : ConditionVisitor.t) : Prop :=
  ∀ c a,
    ConditionVisitor.classes self !! c = Some a →
    ∃ class_info,
      ConditionVisitor.heap self !! a = Some class_info
      ∧ ClassInfo.name class_info = c.

(** Every object bears the name and the line range of one of [N]. *)
Definition objects_within (N : list (string * (Z * Z))) (self : ConditionVisitor.t)
    : Prop :=
  ∀ a class_info,
    ConditionVisitor.heap self !! a = Some class_info →
    (ClassInfo.name class_info,
     (ClassInfo.start_line class_info, ClassInfo.end_line class_info)) ∈ N.

(** Every method-table entry of every object is one of [M]. *)
Definition method_entries_within (M : list (string * (Z * Z)))
    (self : ConditionVisitor.t) : Prop :=
  ∀ a class_info m range,
    ConditionVisitor.heap self !! a = Some class_info →
    ClassInfo.methods class_info !! m = Some range →
    (m, range) ∈ M.

(** The objects of [before] that are not its current class are the same in
    [after], which has created objects only past them. *)
Definition frame (before after : ConditionVisitor.t) : Prop :=
  length (ConditionVisitor.heap before) ≤ length (ConditionVisitor.heap after)
  ∧ (ConditionVisitor.current_class after = ConditionVisitor.current_class before
     ∨ ConditionVisitor.current_class after = None
     ∨ ∃ a, ConditionVisitor.current_class after = Some a
            ∧ length (ConditionVisitor.heap before) ≤ a)
  ∧ ∀ a, a < length (ConditionVisitor.heap before) →
         ConditionVisitor.current_class before ≠ Some a →
         ConditionVisitor.heap after !! a = ConditionVisitor.heap before !! a.

(** The text of a string before its first [sep]; the whole string when it
    has none. *)
Fixpoint up_to (sep : ascii) (s : string) : string :=
  match s with
  | EmptyString => EmptyString
  | String c s' => if Ascii.eqb c sep then EmptyString else String c (up_to sep s')
  end.

(** Every object still has the covered count [ClassInfo] starts with. *)
Definition uncovered (self : ConditionVisitor.t) : Prop :=
  ∀ a class_info,
    ConditionVisitor.heap self !! a = Some class_info →
    ClassInfo.covered_conditions class_info = 0.

(** What the visit of a tree leaves of the class statement
    [class n: body] when no class is defined inside it: the name and the
    line range, an entry per [def] of the body, a count per condition node
    of the body, nothing covered. *)
Definition class_object (n : string) (l : Z) (e : option Z) (body : list AST)
    : ClassInfo.t :=
  class_after (flat_map def_entries body)
              (length (flat_map condition_node_lines body))
              (ClassInfo.init n l (default l e)).

(** An analyzer of [boolop_and_not_in_method] that still holds the tables
    and the covered lines of an earlier run on other text. *)
Definition stale_analyzer : ConditionCoverageAnalyzer.t :=
  ConditionCoverageAnalyzer.mk "" boolop_and_not_in_method
    {[7%Z := Pass]} {[7%Z]} {["Old" := ClassInfo.mk "Old" 6 8 ∅ 1 1]}.

(** * Properties *)

(** ** Counting, and loops that fill a dict *)

Lemma count_le_length {A : Type} (p : A → bool) (l : list A) :
  count p l ≤ length l.
Proof. induction l as [|x l IH]; simpl; [lia|]. destruct (p x); lia. Qed.

Lemma count_mono {A : Type} (p q : A → bool) (l : list A) :
  (∀ x, x ∈ l → p x = true → q x = true) → count p l ≤ count q l.
Proof.
  induction l as [|x l IH]; intros Hpq; simpl; [lia|].
  assert (count p l ≤ count q l) as Hl.
  { apply IH. intros y Hy. apply Hpq. by right. }
  destruct (p x) eqn:Hp.
  - rewrite (Hpq x); [lia | by left | done].
  - destruct (q x); lia.
Qed.

Section fill_dict.
Context {K : Type} `{Countable K} {A B : Type}.

Lemma fill_lookup (g : A → B) (items : list (K * A)) (acc : gmap K B) (k : K) :
  NoDup items.*1 →
  fill g acc items !! k =
    match list_to_map (M := gmap K A) items !! k with
    | Some a => Some (g a)
    | None => acc !! k
    end.
Proof.
  revert acc. induction items as [|[k' a] items IH]; intros acc Hnd.
  - simpl. by rewrite lookup_empty.
  - apply NoDup_cons in Hnd as [Hk' Hnd].
    change (fill g acc ((k', a) :: items)) with (fill g (<[k' := g a]> acc) items).
    rewrite IH by done. simpl.
    destruct (decide (k' = k)) as [->|Hne].
    + rewrite lookup_insert_eq.
      rewrite (not_elem_of_list_to_map_1 (M := gmap K)) by done.
      by rewrite lookup_insert_eq.
    + rewrite !lookup_insert_ne by done. done.
Qed.

Lemma fill_map_to_list (g : A → B) (m : gmap K A) :
  fill g ∅ (map_to_list m) = g <$> m.
Proof.
  apply map_eq. intros k.
  rewrite fill_lookup by apply NoDup_fst_map_to_list.
  rewrite list_to_map_to_list, lookup_fmap, lookup_empty.
  by destruct (m !! k).
Qed.

Lemma fill_lookup_notin (g : A → B) (items : list (K * A)) (acc : gmap K B) (k : K) :
  k ∉ items.*1 → fill g acc items !! k = acc !! k.
Proof.
  revert acc. induction items as [|[k' a] items IH]; intros acc Hk; [done|].
  change (fill g acc ((k', a) :: items)) with (fill g (<[k' := g a]> acc) items).
  simpl in Hk. apply not_elem_of_cons in Hk as [Hne Hk].
  rewrite IH by done. by rewrite lookup_insert_ne.
Qed.

(** The same loop when computing an entry may raise, but never does. *)
Lemma fill_result (f : A → result B) (g : A → B) (items : list (K * A))
    (acc : gmap K B) :
  (∀ a, f a = Ok (g a)) →
  foldl (λ acc item,
           m ← acc; entry ← f item.2; Ok (<[item.1 := entry]> m))
        (Ok acc) items
  = Ok (fill g acc items).
Proof.
  intros Hf. revert acc. induction items as [|[k a] items IH]; intros acc; simpl.
  - done.
  - rewrite Hf. simpl. apply IH.
Qed.
End fill_dict.

(** ** The aggregator's loops in closed form *)

Lemma truediv_Ok (a b : nat) :
  b ≠ 0 → truediv a b = Ok (inject_Z (Z.of_nat a) / inject_Z (Z.of_nat b))%Q.
Proof. intros Hb. unfold truediv. by destruct (decide (b = 0)). Qed.

Lemma guarded_percentage (covered total : nat) :
  (if decide (total = 0) then Ok 100%Q
   else q ← truediv covered total; Ok (q * 100)%Q)
  = Ok (percentage covered total).
Proof.
  unfold percentage. destruct (decide (total = 0)) as [|Hne]; [done|].
  by rewrite truediv_Ok.
Qed.

Lemma condition_cov_Ok (total covered : nat) :
  ConditionCoveragePlugin.condition_cov total covered = Ok (percentage covered total).
Proof.
  unfold ConditionCoveragePlugin.condition_cov, percentage.
  destruct (decide (0 < total)), (decide (total = 0)); try lia; [|done].
  by rewrite truediv_Ok.
Qed.

Lemma length_condition_lines (self : ConditionCoverageAnalyzer.t) :
  length (condition_lines self) = size (ConditionCoverageAnalyzer.conditions self).
Proof. unfold condition_lines. by rewrite length_fmap, length_map_to_list. Qed.

Lemma file_loop_count (E : gset Z) (keys : list Z) (n : nat) (X : gset Z) :
  (foldl (ConditionCoverageAnalyzer.file_step E) (n, X) keys).1
  = n + count (λ l, bool_decide (l ∈ E)) keys.
Proof.
  revert n X. induction keys as [|k keys IH]; intros n X; simpl; [lia|].
  unfold ConditionCoverageAnalyzer.file_step at 2.
  destruct (bool_decide (k ∈ E)); rewrite IH; simpl; lia.
Qed.

Lemma file_loop_set (E : gset Z) (keys : list Z) (n : nat) (X : gset Z) (l : Z) :
  l ∈ (foldl (ConditionCoverageAnalyzer.file_step E) (n, X) keys).2
  ↔ l ∈ X ∨ (l ∈ keys ∧ l ∈ E).
Proof.
  revert n X. induction keys as [|k keys IH]; intros n X; simpl.
  - rewrite elem_of_nil. tauto.
  - unfold ConditionCoverageAnalyzer.file_step at 2.
    destruct (bool_decide (k ∈ E)) eqn:Hk; rewrite IH; simpl.
    + apply bool_decide_eq_true in Hk.
      rewrite elem_of_union, elem_of_singleton, elem_of_cons.
      split; [intros [[->|?]|[? ?]]|intros [?|[[->|?] ?]]]; tauto.
    + apply bool_decide_eq_false in Hk. rewrite elem_of_cons.
      split; [intros [?|[? ?]]|intros [?|[[->|?] ?]]]; tauto.
Qed.

Lemma class_loop_count (E : gset Z) (class_info : ClassInfo.t)
    (keys : list Z) (n : nat) :
  foldl (ConditionCoverageAnalyzer.class_step E class_info) n keys
  = n + count (λ l, bool_decide (l ∈ E)
                    && ConditionCoverageAnalyzer.in_range
                         (ClassInfo.start_line class_info)
                         (ClassInfo.end_line class_info) l) keys.
Proof.
  revert n. induction keys as [|k keys IH]; intros n; simpl; [lia|].
  rewrite IH. unfold ConditionCoverageAnalyzer.class_step.
  destruct (_ && _); lia.
Qed.

Lemma method_loop_count (self : ConditionCoverageAnalyzer.t)
    (start_line end_line : Z) (keys : list Z) (n m : nat) :
  foldl (ConditionCoverageAnalyzer.method_step self start_line end_line) (n, m) keys
  = (n + count (ConditionCoverageAnalyzer.in_range start_line end_line) keys,
     m + count (λ l, ConditionCoverageAnalyzer.in_range start_line end_line l
                     && bool_decide
                          (l ∈ ConditionCoverageAnalyzer.covered_conditions self))
               keys).
Proof.
  revert n m. induction keys as [|k keys IH]; intros n m; simpl.
  - f_equal; lia.
  - unfold ConditionCoverageAnalyzer.method_step at 2.
    destruct (ConditionCoverageAnalyzer.in_range start_line end_line k); simpl.
    + destruct (bool_decide _); rewrite IH; f_equal; lia.
    + rewrite IH. f_equal.
Qed.

Lemma method_entry_Ok (self : ConditionCoverageAnalyzer.t) (range : Z * Z) :
  ConditionCoverageAnalyzer.method_entry self range = Ok (method_report self range).
Proof.
  destruct range as [start_line end_line].
  unfold ConditionCoverageAnalyzer.method_entry, method_report.
  fold (condition_lines self). rewrite method_loop_count. simpl.
  by rewrite guarded_percentage.
Qed.

Lemma class_entry_Ok (self : ConditionCoverageAnalyzer.t) (class_info : ClassInfo.t) :
  ConditionCoverageAnalyzer.class_entry self class_info
  = Ok (class_report self class_info).
Proof.
  unfold ConditionCoverageAnalyzer.class_entry, class_report.
  rewrite guarded_percentage. simpl.
  unfold ConditionCoverageAnalyzer.methods_loop.
  rewrite (fill_result _ (method_report self)) by apply method_entry_Ok.
  simpl. by rewrite fill_map_to_list.
Qed.

(** [get_class_coverage] never raises: it returns one entry per class. *)
Lemma get_class_coverage_Ok (self : ConditionCoverageAnalyzer.t) :
  ConditionCoverageAnalyzer.get_class_coverage self
  = Ok (class_report self <$> ConditionCoverageAnalyzer.classes self).
Proof.
  unfold ConditionCoverageAnalyzer.get_class_coverage.
  rewrite (fill_result _ (class_report self)) by apply class_entry_Ok.
  by rewrite fill_map_to_list.
Qed.

(** ** Arithmetic of percentages *)

Lemma percentage_zero_total (covered : nat) : percentage covered 0 = 100%Q.
Proof. done. Qed.

Lemma inject_nat_pos (n : nat) : n ≠ 0 → (0 < inject_Z (Z.of_nat n))%Q.
Proof.
  intros Hn. change 0%Q with (inject_Z 0). rewrite <- Zlt_Qlt. lia.
Qed.

Lemma percentage_mono (covered covered' total : nat) :
  covered ≤ covered' → (percentage covered total <= percentage covered' total)%Q.
Proof.
  intros Hle. unfold percentage.
  destruct (decide (total = 0)) as [|Hne]; [apply Qle_refl|].
  apply Qmult_le_compat_r; [|done].
  unfold Qdiv. apply Qmult_le_compat_r.
  - rewrite <- Zle_Qle. lia.
  - apply Qlt_le_weak, Qinv_lt_0_compat, inject_nat_pos, Hne.
Qed.

Lemma percentage_nonneg (covered total : nat) : (0 <= percentage covered total)%Q.
Proof.
  unfold percentage. destruct (decide (total = 0)) as [|Hne]; [done|].
  apply Qmult_le_0_compat; [|done].
  unfold Qdiv. apply Qmult_le_0_compat.
  - change 0%Q with (inject_Z 0). rewrite <- Zle_Qle. lia.
  - apply Qlt_le_weak, Qinv_lt_0_compat, inject_nat_pos, Hne.
Qed.

Lemma percentage_le_100 (covered total : nat) :
  covered ≤ total → (percentage covered total <= 100)%Q.
Proof.
  intros Hle. unfold percentage.
  destruct (decide (total = 0)) as [|Hne]; [apply Qle_refl|].
  apply (Qle_trans _ (1 * 100)%Q); [|done].
  apply Qmult_le_compat_r; [|done].
  apply Qle_shift_div_r; [by apply inject_nat_pos|].
  rewrite Qmult_1_l, <- Zle_Qle. lia.
Qed.

(** ** [analyze_file] and [measure] in closed form *)

Lemma executed_singleton (lines : gset Z) :
  executed {["executed_lines" := lines]} = lines.
Proof. unfold executed. by rewrite lookup_singleton_eq. Qed.

Lemma analyze_file_eq (self : ConditionCoverageAnalyzer.t)
    (coverage_data : gmap string (gset Z)) :
  let self0 := extracted self in
  let E := executed coverage_data in
  let keys := condition_lines self0 in
  ∃ covered_set : gset Z,
    ConditionCoverageAnalyzer.analyze_file self coverage_data
    = ((size (ConditionCoverageAnalyzer.conditions self0), file_covered E keys),
       ConditionCoverageAnalyzer.mk
         (ConditionCoverageAnalyzer.source_code self0)
         (ConditionCoverageAnalyzer.tree self0)
         (ConditionCoverageAnalyzer.conditions self0)
         covered_set
         ((λ class_info,
             ClassInfo.set_covered_conditions (class_covered E class_info keys)
                                              class_info)
          <$> ConditionCoverageAnalyzer.classes self0))
    ∧ ∀ l, l ∈ covered_set
           ↔ l ∈ ConditionCoverageAnalyzer.covered_conditions self
             ∨ (l ∈ keys ∧ l ∈ E).
Proof.
  intros self0 E keys.
  unfold ConditionCoverageAnalyzer.analyze_file.
  destruct (ConditionCoverageAnalyzer.find_conditions self) as [total self1] eqn:Hfind.
  assert (self0 = self1) as <- by (unfold self0, extracted; by rewrite Hfind).
  assert (total = size (ConditionCoverageAnalyzer.conditions self0)) as ->.
  { change total with (total, self0).1. by rewrite <- Hfind. }
  assert (ConditionCoverageAnalyzer.covered_conditions self0
          = ConditionCoverageAnalyzer.covered_conditions self) as Hcov.
  { unfold self0, extracted. done. }
  fold (executed coverage_data). fold E. fold (condition_lines self0). fold keys.
  destruct (foldl (ConditionCoverageAnalyzer.file_step E)
              (0, ConditionCoverageAnalyzer.covered_conditions self0) keys)
    as [covered covered_set] eqn:Hloop.
  exists covered_set. split.
  - f_equal; [f_equal|].
    + change covered with (covered, covered_set).1. rewrite <- Hloop.
      by rewrite file_loop_count.
    + f_equal. apply map_fmap_ext. intros c class_info _.
      by rewrite class_loop_count.
  - intros l. change covered_set with (covered, covered_set).2.
    rewrite <- Hloop, file_loop_set, Hcov. done.
Qed.

Lemma measure_Ok (analyzer : ConditionCoverageAnalyzer.t) (lines : gset Z) :
  let self0 := extracted analyzer in
  let keys := condition_lines self0 in
  let total := size (ConditionCoverageAnalyzer.conditions self0) in
  let covered := file_covered lines keys in
  ∃ self' : ConditionCoverageAnalyzer.t,
    ConditionCoveragePlugin.measure analyzer lines
    = Ok (ConditionCoveragePlugin.mk_file_result
            (percentage covered total) total covered
            (measured_class self' lines keys
             <$> ConditionCoverageAnalyzer.classes self0))
    ∧ condition_lines self' = keys
    ∧ ∀ l, l ∈ ConditionCoverageAnalyzer.covered_conditions self'
           ↔ l ∈ ConditionCoverageAnalyzer.covered_conditions analyzer
             ∨ (l ∈ keys ∧ l ∈ lines).
Proof.
  intros self0 keys total covered.
  pose proof (analyze_file_eq analyzer {["executed_lines" := lines]}) as Hrun.
  cbv zeta in Hrun. rewrite executed_singleton in Hrun.
  destruct Hrun as (covered_set & Heq & Hset).
  fold self0 in Heq, Hset. fold keys in Heq, Hset.
  match type of Heq with _ = (_, ?a) => exists a end.
  split; [|split; [|exact Hset]].
  - unfold ConditionCoveragePlugin.measure. rewrite Heq.
    rewrite condition_cov_Ok. simpl.
    rewrite get_class_coverage_Ok. simpl.
    rewrite <- map_fmap_compose. reflexivity.
  - reflexivity.
Qed.

Lemma method_report_covered_le (self : ConditionCoverageAnalyzer.t) (range : Z * Z) :
  MethodCoverage.covered_conditions (method_report self range)
  ≤ MethodCoverage.total_conditions (method_report self range).
Proof.
  unfold method_report. simpl. apply count_mono.
  intros l _ Hl. by apply andb_true_iff in Hl as [? _].
Qed.

Lemma file_covered_le (E : gset Z) (keys : list Z) : file_covered E keys ≤ length keys.
Proof. apply count_le_length. Qed.

(** ** The visitor *)

Lemma generic_visit_nil (self : ConditionVisitor.t) :
  ConditionVisitor.generic_visit [] self = self.
Proof. done. Qed.

Lemma generic_visit_cons (c : AST) (ch : list AST) (self : ConditionVisitor.t) :
  ConditionVisitor.generic_visit (c :: ch) self
  = ConditionVisitor.generic_visit ch (ConditionVisitor.visit c self).
Proof. done. Qed.

Lemma conditions_update_current_class f (self : ConditionVisitor.t) :
  ConditionVisitor.conditions (ConditionVisitor.update_current_class f self)
  = ConditionVisitor.conditions self.
Proof.
  unfold ConditionVisitor.update_current_class.
  by destruct (ConditionVisitor.current_class self).
Qed.

(** [visit] by node class. *)
Lemma visit_ClassDef n l e ch (self : ConditionVisitor.t) :
  ConditionVisitor.visit (ClassDef n l e ch) self
  = ConditionVisitor.set_current_class None
      (ConditionVisitor.generic_visit ch
         (ConditionVisitor.enter_class n l (default l e) self)).
Proof. done. Qed.

Lemma visit_ClassDef_current_class n l e ch (self : ConditionVisitor.t) :
  ConditionVisitor.current_class (ConditionVisitor.visit (ClassDef n l e ch) self)
  = None.
Proof. by rewrite visit_ClassDef. Qed.

Lemma visit_FunctionDef n l e ch (self : ConditionVisitor.t) :
  ConditionVisitor.visit (FunctionDef n l e ch) self
  = ConditionVisitor.generic_visit ch
      (ConditionVisitor.update_current_class
         (λ c, ClassInfo.add_method c n l (default l e)) self).
Proof. done. Qed.

Lemma visit_AsyncFunctionDef n l e ch (self : ConditionVisitor.t) :
  ConditionVisitor.visit (AsyncFunctionDef n l e ch) self
  = ConditionVisitor.generic_visit ch self.
Proof. done. Qed.

Lemma visit_Compare l ch (self : ConditionVisitor.t) :
  ConditionVisitor.visit (Compare l ch) self
  = ConditionVisitor.generic_visit ch
      (ConditionVisitor.update_current_class ClassInfo.incr_conditions
         (ConditionVisitor.record_condition l (Compare l ch) self)).
Proof. done. Qed.

Lemma visit_BoolOp l ch (self : ConditionVisitor.t) :
  ConditionVisitor.visit (BoolOp l ch) self
  = ConditionVisitor.generic_visit ch
      (ConditionVisitor.update_current_class ClassInfo.incr_conditions
         (ConditionVisitor.record_condition l (BoolOp l ch) self)).
Proof. done. Qed.

Lemma visit_UnaryOp_Not l ch (self : ConditionVisitor.t) :
  ConditionVisitor.visit (UnaryOp Not l ch) self
  = ConditionVisitor.generic_visit ch
      (ConditionVisitor.update_current_class ClassInfo.incr_conditions
         (ConditionVisitor.record_condition l (UnaryOp Not l ch) self)).
Proof. done. Qed.

Lemma visit_UnaryOp_other op l ch (self : ConditionVisitor.t) :
  op ≠ Not →
  ConditionVisitor.visit (UnaryOp op l ch) self
  = ConditionVisitor.generic_visit ch self.
Proof. by destruct op. Qed.

Lemma visit_Other ch (self : ConditionVisitor.t) :
  ConditionVisitor.visit (Other ch) self = ConditionVisitor.generic_visit ch self.
Proof. done. Qed.

Lemma condition_node_lines_UnaryOp_other op l ch :
  op ≠ Not →
  condition_node_lines (UnaryOp op l ch) = flat_map condition_node_lines ch.
Proof. by destruct op. Qed.

(** Lifting a property of [visit] on every child to [generic_visit]. *)
Lemma generic_visit_dom (ch : list AST) :
  Forall (λ t, ∀ self,
            dom (ConditionVisitor.conditions (ConditionVisitor.visit t self))
            = dom (ConditionVisitor.conditions self)
              ∪ list_to_set (condition_node_lines t)) ch →
  ∀ self,
    dom (ConditionVisitor.conditions (ConditionVisitor.generic_visit ch self))
    = dom (ConditionVisitor.conditions self)
      ∪ list_to_set (flat_map condition_node_lines ch).
Proof.
  induction 1 as [|c ch Hc _ IH]; intros self.
  - simpl. by rewrite (right_id_L ∅ (∪)).
  - rewrite generic_visit_cons, IH, Hc. simpl.
    rewrite list_to_set_app_L. by rewrite (assoc_L (∪)).
Qed.

Lemma dom_record_condition l node (self : ConditionVisitor.t) (X : gset Z) :
  dom (ConditionVisitor.conditions
         (ConditionVisitor.update_current_class ClassInfo.incr_conditions
            (ConditionVisitor.record_condition l node self))) ∪ X
  = dom (ConditionVisitor.conditions self) ∪ ({[l]} ∪ X).
Proof.
  rewrite conditions_update_current_class. simpl. rewrite dom_insert_L.
  by rewrite (comm_L (∪) {[l]}), <- (assoc_L (∪)).
Qed.

(** The keys of the visitor's [conditions] are the old keys and the lines of
    the condition nodes of the tree: one key per line, whatever the number of
    nodes on it. *)
Lemma visit_dom (t : AST) (self : ConditionVisitor.t) :
  dom (ConditionVisitor.conditions (ConditionVisitor.visit t self))
  = dom (ConditionVisitor.conditions self) ∪ list_to_set (condition_node_lines t).
Proof.
  revert self. induction t as [n l e ch IH|n l e ch IH|n l e ch IH|l ch IH|l ch IH
                              |op l ch IH|ch IH] using AST_forall_ind;
    intros self.
  - rewrite visit_ClassDef. simpl. by rewrite generic_visit_dom.
  - rewrite visit_FunctionDef, generic_visit_dom by done.
    by rewrite conditions_update_current_class.
  - rewrite visit_AsyncFunctionDef. by rewrite generic_visit_dom.
  - rewrite visit_Compare, generic_visit_dom by done. apply dom_record_condition.
  - rewrite visit_BoolOp, generic_visit_dom by done. apply dom_record_condition.
  - destruct (decide (op = Not)) as [->|Hop].
    + rewrite visit_UnaryOp_Not, generic_visit_dom by done.
      apply dom_record_condition.
    + rewrite visit_UnaryOp_other, condition_node_lines_UnaryOp_other by done.
      by rewrite generic_visit_dom.
  - rewrite visit_Other. by rewrite generic_visit_dom.
Qed.


(** *** Method tables hold names of [FunctionDef] nodes only *)

Lemma methods_within_update (N : list string) f (self : ConditionVisitor.t) :
  (∀ class_info m,
     is_Some (ClassInfo.methods (f class_info) !! m) →
     is_Some (ClassInfo.methods class_info !! m) ∨ m ∈ N) →
  methods_within N (ConditionVisitor.heap self) →
  methods_within N (ConditionVisitor.heap (ConditionVisitor.update_current_class f self)).
Proof.
  intros Hf Hself. unfold ConditionVisitor.update_current_class.
  destruct (ConditionVisitor.current_class self) as [a|]; [|done].
  simpl. intros a' class_info m Hlook Hm.
  destruct (decide (a = a')) as [<-|Hne].
  - rewrite list_lookup_alter_eq in Hlook.
    destruct (ConditionVisitor.heap self !! a) as [class_info0|] eqn:Ha;
      simplify_eq/=.
    destruct (Hf _ _ Hm) as [Hm0|]; [|done].
    by eapply Hself.
  - rewrite list_lookup_alter_ne in Hlook by done. by eapply Hself.
Qed.

Lemma methods_within_incr (N : list string) (self : ConditionVisitor.t) :
  methods_within N (ConditionVisitor.heap self) →
  methods_within N
    (ConditionVisitor.heap
       (ConditionVisitor.update_current_class ClassInfo.incr_conditions self)).
Proof. apply methods_within_update. intros class_info m Hm. by left. Qed.

Lemma methods_within_enter (N : list string) n s e (self : ConditionVisitor.t) :
  methods_within N (ConditionVisitor.heap self) →
  methods_within N (ConditionVisitor.heap (ConditionVisitor.enter_class n s e self)).
Proof.
  intros Hself a class_info m Hlook Hm. simpl in Hlook.
  apply lookup_app_Some in Hlook as [Hlook|[_ Hlook]]; [by eapply Hself|].
  apply list_lookup_singleton_Some in Hlook as [_ <-].
  simpl in Hm. rewrite lookup_empty in Hm. by destruct Hm.
Qed.

Lemma generic_visit_methods_within (ch : list AST) :
  Forall (λ t, ∀ N self,
            (∀ m, m ∈ def_names t → m ∈ N) →
            methods_within N (ConditionVisitor.heap self) →
            methods_within N (ConditionVisitor.heap (ConditionVisitor.visit t self)))
         ch →
  ∀ N self,
    (∀ m, m ∈ flat_map def_names ch → m ∈ N) →
    methods_within N (ConditionVisitor.heap self) →
    methods_within N (ConditionVisitor.heap (ConditionVisitor.generic_visit ch self)).
Proof.
  induction 1 as [|c ch Hc _ IH]; intros N self HN Hself; [done|].
  rewrite generic_visit_cons. apply IH.
  - intros m Hm. apply HN. simpl. apply elem_of_app. by right.
  - apply Hc; [|done]. intros m Hm. apply HN. simpl. apply elem_of_app. by left.
Qed.

Lemma visit_methods_within (t : AST) (N : list string) (self : ConditionVisitor.t) :
  (∀ m, m ∈ def_names t → m ∈ N) →
  methods_within N (ConditionVisitor.heap self) →
  methods_within N (ConditionVisitor.heap (ConditionVisitor.visit t self)).
Proof.
  revert N self.
  induction t as [n l e ch IH|n l e ch IH|n l e ch IH|l ch IH|l ch IH
                 |op l ch IH|ch IH] using AST_forall_ind;
    intros N self HN Hself.
  - rewrite visit_ClassDef. simpl.
    apply generic_visit_methods_within; [done..|]. by apply methods_within_enter.
  - rewrite visit_FunctionDef.
    apply generic_visit_methods_within; [done| |].
    + intros m Hm. apply HN. simpl. by right.
    + apply methods_within_update; [|done]. intros class_info m Hm. simpl in Hm.
      destruct (decide (n = m)) as [<-|Hne].
      * right. apply HN. simpl. by left.
      * left. by rewrite lookup_insert_ne in Hm.
  - rewrite visit_AsyncFunctionDef. by apply generic_visit_methods_within.
  - rewrite visit_Compare.
    apply generic_visit_methods_within; [done..|]. by apply methods_within_incr.
  - rewrite visit_BoolOp.
    apply generic_visit_methods_within; [done..|]. by apply methods_within_incr.
  - destruct (decide (op = Not)) as [->|Hop].
    + rewrite visit_UnaryOp_Not.
      apply generic_visit_methods_within; [done..|]. by apply methods_within_incr.
    + rewrite visit_UnaryOp_other by done. by apply generic_visit_methods_within.
  - rewrite visit_Other. by apply generic_visit_methods_within.
Qed.

(** Every method name of every extracted class is the name of a
    [FunctionDef] node of the tree. *)
Lemma extracted_methods_are_defs (self : ConditionCoverageAnalyzer.t)
    (c m : string) (class_info : ClassInfo.t) :
  ConditionCoverageAnalyzer.classes (extracted self) !! c = Some class_info →
  is_Some (ClassInfo.methods class_info !! m) →
  m ∈ def_names (ConditionCoverageAnalyzer.tree self).
Proof.
  unfold extracted, ConditionCoverageAnalyzer.find_conditions. simpl.
  unfold ConditionVisitor.classes_view. rewrite lookup_omap.
  intros Hc Hm.
  destruct (ConditionVisitor.classes _ !! c) as [a|]; [|done]. simpl in Hc.
  eapply (visit_methods_within (ConditionCoverageAnalyzer.tree self)
            _ ConditionVisitor.init); [| |exact Hc|exact Hm].
  - done.
  - intros a' class_info' m' Hlook. done.
Qed.

(** *** Visiting inside a class, away from nested classes *)

Lemma class_after_nil (class_info : ClassInfo.t) :
  class_after [] 0 class_info = class_info.
Proof.
  destruct class_info. unfold class_after, fill. simpl. by rewrite Nat.add_0_r.
Qed.

Lemma class_after_app entries1 k1 entries2 k2 (class_info : ClassInfo.t) :
  class_after entries2 k2 (class_after entries1 k1 class_info)
  = class_after (entries1 ++ entries2) (k1 + k2) class_info.
Proof.
  unfold class_after, fill. simpl. rewrite foldl_app. f_equal. lia.
Qed.

Lemma class_after_add_method n s e (class_info : ClassInfo.t) :
  ClassInfo.add_method class_info n s e = class_after [(n, (s, e))] 0 class_info.
Proof.
  unfold ClassInfo.add_method, class_after, fill. simpl. by rewrite Nat.add_0_r.
Qed.

Lemma class_after_incr (class_info : ClassInfo.t) :
  ClassInfo.incr_conditions class_info = class_after [] 1 class_info.
Proof.
  unfold ClassInfo.incr_conditions, class_after, fill. simpl. f_equal. lia.
Qed.

Lemma inside_class_update a f (self : ConditionVisitor.t) :
  ConditionVisitor.current_class self = Some a →
  inside_class a f self (ConditionVisitor.update_current_class f self).
Proof.
  intros Ha. unfold inside_class, ConditionVisitor.update_current_class.
  by rewrite Ha.
Qed.

Lemma inside_class_trans a f g (s1 s2 s3 : ConditionVisitor.t) :
  inside_class a f s1 s2 → inside_class a g s2 s3 → inside_class a (g ∘ f) s1 s3.
Proof.
  intros (_ & Hc1 & Hh1) (Ha & Hc2 & Hh2). repeat split; [done|congruence|].
  by rewrite Hh2, Hh1, list_alter_alter_eq.
Qed.

Lemma inside_class_ext a f g (s1 s2 : ConditionVisitor.t) :
  (∀ class_info, f class_info = g class_info) →
  inside_class a f s1 s2 → inside_class a g s1 s2.
Proof.
  intros Hfg (Ha & Hc & Hh). repeat split; [done..|].
  rewrite Hh. by apply list_alter_ext.
Qed.

Lemma inside_class_record a f l node (s1 s2 : ConditionVisitor.t) :
  inside_class a f (ConditionVisitor.record_condition l node s1) s2 →
  inside_class a f s1 s2.
Proof. done. Qed.

Lemma generic_visit_inside_class (ch : list AST) :
  Forall (λ t, has_ClassDef t = false →
               ∀ self a,
                 ConditionVisitor.current_class self = Some a →
                 inside_class a
                   (class_after (def_entries t) (length (condition_node_lines t)))
                   self (ConditionVisitor.visit t self)) ch →
  existsb has_ClassDef ch = false →
  ∀ self a,
    ConditionVisitor.current_class self = Some a →
    inside_class a
      (class_after (flat_map def_entries ch)
                   (length (flat_map condition_node_lines ch)))
      self (ConditionVisitor.generic_visit ch self).
Proof.
  induction 1 as [|c ch Hc _ IH]; intros Hno self a Ha.
  - repeat split; [done..|]. simpl. symmetry. apply list_alter_id, class_after_nil.
  - simpl in Hno. apply orb_false_iff in Hno as [Hnoc Hnoch].
    rewrite generic_visit_cons.
    pose proof (Hc Hnoc self a Ha) as Hstep.
    eapply inside_class_ext;
      [|eapply inside_class_trans; [exact Hstep|apply IH; [done|apply Hstep]]].
    intros class_info. simpl. by rewrite class_after_app, length_app.
Qed.

(** Inside a class and without a nested [ClassDef], visiting a tree leaves
    the current class and [classes] alone, writes one method-table entry per
    [FunctionDef] node and counts one condition per condition node. *)
Lemma visit_inside_class (t : AST) :
  has_ClassDef t = false →
  ∀ self a,
    ConditionVisitor.current_class self = Some a →
    inside_class a
      (class_after (def_entries t) (length (condition_node_lines t)))
      self (ConditionVisitor.visit t self).
Proof.
  induction t as [n l e ch IH|n l e ch IH|n l e ch IH|l ch IH|l ch IH
                 |op l ch IH|ch IH] using AST_forall_ind;
    intros Hno self a Ha; simpl in Hno.
  - done.
  - rewrite visit_FunctionDef.
    eapply inside_class_ext;
      [|eapply inside_class_trans;
         [by apply inside_class_update
         |apply generic_visit_inside_class; [done..|]; by apply inside_class_update]].
    intros class_info. simpl.
    by rewrite class_after_add_method, class_after_app.
  - rewrite visit_AsyncFunctionDef. by apply generic_visit_inside_class.
  - rewrite visit_Compare. apply (inside_class_record _ _ l (Compare l ch)).
    eapply inside_class_ext;
      [|eapply inside_class_trans;
         [by apply inside_class_update
         |apply generic_visit_inside_class; [done..|]; by apply inside_class_update]].
    intros class_info. simpl. by rewrite class_after_incr, class_after_app.
  - rewrite visit_BoolOp. apply (inside_class_record _ _ l (BoolOp l ch)).
    eapply inside_class_ext;
      [|eapply inside_class_trans;
         [by apply inside_class_update
         |apply generic_visit_inside_class; [done..|]; by apply inside_class_update]].
    intros class_info. simpl. by rewrite class_after_incr, class_after_app.
  - destruct (decide (op = Not)) as [->|Hop].
    + rewrite visit_UnaryOp_Not. apply (inside_class_record _ _ l (UnaryOp Not l ch)).
      eapply inside_class_ext;
        [|eapply inside_class_trans;
           [by apply inside_class_update
           |apply generic_visit_inside_class; [done..|]; by apply inside_class_update]].
      intros class_info. simpl. by rewrite class_after_incr, class_after_app.
    + rewrite visit_UnaryOp_other, condition_node_lines_UnaryOp_other by done.
      replace (def_entries (UnaryOp op l ch)) with (flat_map def_entries ch)
        by by destruct op.
      by apply generic_visit_inside_class.
  - rewrite visit_Other. by apply generic_visit_inside_class.
Qed.

Lemma flat_map_def_entries_names (ch : list AST) :
  Forall (λ t, (def_entries t).*1 = def_names t) ch →
  (flat_map def_entries ch).*1 = flat_map def_names ch.
Proof.
  induction 1 as [|c ch Hc _ IH]; [done|].
  simpl. by rewrite fmap_app, Hc, IH.
Qed.

Lemma def_entries_names (t : AST) : (def_entries t).*1 = def_names t.
Proof.
  induction t as [n l e ch IH|n l e ch IH|n l e ch IH|l ch IH|l ch IH
                 |op l ch IH|ch IH] using AST_forall_ind;
    simpl; rewrite ?flat_map_def_entries_names by done; done.
Qed.

(** A class definition with no class nested in it: the object it creates
    ends with one method-table entry per [def] below it, nested ones too,
    and a counter equal to the number of condition nodes below it. *)
Lemma visit_ClassDef_object n l e body (self : ConditionVisitor.t) :
  existsb has_ClassDef body = false →
  ConditionVisitor.heap (ConditionVisitor.visit (ClassDef n l e body) self)
  !! length (ConditionVisitor.heap self)
  = Some (class_after (flat_map def_entries body)
                      (length (flat_map condition_node_lines body))
                      (ClassInfo.init n l (default l e))).
Proof.
  intros Hno. rewrite visit_ClassDef.
  destruct (generic_visit_inside_class body
              (Forall_true _ body (λ t, visit_inside_class t)) Hno
              (ConditionVisitor.enter_class n l (default l e) self)
              (length (ConditionVisitor.heap self)) eq_refl)
    as (_ & _ & Hheap).
  cbn [ConditionVisitor.set_current_class ConditionVisitor.heap].
  rewrite Hheap, list_lookup_alter_eq.
  cbn [ConditionVisitor.enter_class ConditionVisitor.heap].
  by rewrite list_lookup_middle.
Qed.

(** ** The report *)

Lemma report_loop_sums relpath items total covered files :
  let r := foldl (ConditionCoveragePlugin.report_step relpath)
                 (total, covered, files) items in
  r.1.1 = total + sum_list (ConditionCoveragePlugin.total_conditions <$> items.*2)
  ∧ r.1.2 = covered + sum_list (ConditionCoveragePlugin.covered_conditions <$> items.*2).
Proof.
  revert total covered files.
  induction items as [|[file_path data] items IH]; intros total covered files; simpl.
  - split; lia.
  - destruct (IH (total + ConditionCoveragePlugin.total_conditions data)
                 (covered + ConditionCoveragePlugin.covered_conditions data)
                 (<[relpath file_path :=
                      ConditionCoveragePlugin.mk_file_result
                        (ConditionCoveragePlugin.condition_coverage data)
                        (ConditionCoveragePlugin.total_conditions data)
                        (ConditionCoveragePlugin.covered_conditions data)
                        (ConditionCoveragePlugin.classes data)]> files))
      as [IH1 IH2].
    rewrite IH1, IH2. split; symmetry; apply Nat.add_assoc.
Qed.

(** The [report_data] of [_generate_report] always comes out; its top-level
    figure is the ratio of the two sums when some file has a condition, and
    0 otherwise. *)
Lemma generate_report_total relpath
    (results : gmap string ConditionCoveragePlugin.file_result) :
  ∃ files,
    ConditionCoveragePlugin._generate_report relpath results
    = Ok (ConditionCoveragePlugin.mk_report_data files
            (if decide (grand_total results = 0) then 0%Q
             else (inject_Z (Z.of_nat (grand_covered results))
                   / inject_Z (Z.of_nat (grand_total results)) * 100)%Q)).
Proof.
  unfold ConditionCoveragePlugin._generate_report.
  pose proof (report_loop_sums relpath (map_to_list results) 0 0 ∅) as Hsums.
  cbv zeta in Hsums.
  destruct (foldl (ConditionCoveragePlugin.report_step relpath) (0, 0, ∅)
              (map_to_list results)) as [[total covered] files].
  simpl in Hsums. destruct Hsums as [-> ->]. fold (grand_total results).
  fold (grand_covered results). exists files.
  destruct (decide (0 < grand_total results)), (decide (grand_total results = 0));
    try lia; [|done].
  by rewrite truediv_Ok.
Qed.

(** * The claims *)

Ltac entry_simpl :=
  cbn [ConditionCoveragePlugin.total_conditions
       ConditionCoveragePlugin.covered_conditions
       ConditionCoveragePlugin.condition_coverage
       ConditionCoveragePlugin.classes
       ClassCoverage.total_conditions ClassCoverage.covered_conditions
       ClassCoverage.coverage_percentage ClassCoverage.methods
       MethodCoverage.total_conditions MethodCoverage.covered_conditions
       MethodCoverage.coverage_percentage
       measured_class class_report method_report
       ClassInfo.set_covered_conditions ClassInfo.conditions
       ClassInfo.covered_conditions ClassInfo.methods] in *.

(** ** The aggregator *)


(** C9. At file level and at method level the covered count never exceeds
    the total, and the coverage percentage lies between 0 and 100. *)
Theorem covered_at_most_total :
  ∀ (analyzer : ConditionCoverageAnalyzer.t) (lines : gset Z),
    ∃ r,
      ConditionCoveragePlugin.measure analyzer lines = Ok r
      ∧ ConditionCoveragePlugin.covered_conditions r
        ≤ ConditionCoveragePlugin.total_conditions r
      ∧ (0 <= ConditionCoveragePlugin.condition_coverage r)%Q
      ∧ (ConditionCoveragePlugin.condition_coverage r <= 100)%Q
      ∧ ∀ c e m me,
          ConditionCoveragePlugin.classes r !! c = Some e →
          ClassCoverage.methods e !! m = Some me →
          MethodCoverage.covered_conditions me ≤ MethodCoverage.total_conditions me
          ∧ (0 <= MethodCoverage.coverage_percentage me)%Q
          ∧ (MethodCoverage.coverage_percentage me <= 100)%Q.
Proof.
  intros analyzer lines.
  destruct (measure_Ok analyzer lines) as (self' & -> & _ & _).
  eexists. split; [reflexivity|]. entry_simpl.
  assert (file_covered lines (condition_lines (extracted analyzer))
          ≤ size (ConditionCoverageAnalyzer.conditions (extracted analyzer))) as Hle.
  { rewrite <- length_condition_lines. apply file_covered_le. }
  split; [done|]. split; [apply percentage_nonneg|].
  split; [by apply percentage_le_100|].
  intros c e m me Hc Hm.
  apply lookup_fmap_Some in Hc as (class_info & <- & _). entry_simpl.
  apply lookup_fmap_Some in Hm as (range & <- & _).
  pose proof (method_report_covered_le self' range) as Hcov.
  split; [done|]. split; [apply percentage_nonneg|].
  by apply percentage_le_100.
Qed.

(** C6. Adding a line to the executed set never lowers a covered count or a
    coverage percentage: not the file's, not a class's, not a method's; and
    the same classes and methods are reported. *)
Theorem executed_line_monotone :
  ∀ (analyzer : ConditionCoverageAnalyzer.t) (E : gset Z) (l : Z),
    ∃ r r',
      ConditionCoveragePlugin.measure analyzer E = Ok r
      ∧ ConditionCoveragePlugin.measure analyzer (E ∪ {[l]}) = Ok r'
      ∧ ConditionCoveragePlugin.covered_conditions r
        ≤ ConditionCoveragePlugin.covered_conditions r'
      ∧ (ConditionCoveragePlugin.condition_coverage r
         <= ConditionCoveragePlugin.condition_coverage r')%Q
      ∧ ∀ c e,
          ConditionCoveragePlugin.classes r !! c = Some e →
          ∃ e',
            ConditionCoveragePlugin.classes r' !! c = Some e'
            ∧ ClassCoverage.covered_conditions e ≤ ClassCoverage.covered_conditions e'
            ∧ (ClassCoverage.coverage_percentage e
               <= ClassCoverage.coverage_percentage e')%Q
            ∧ ∀ m me,
                ClassCoverage.methods e !! m = Some me →
                ∃ me',
                  ClassCoverage.methods e' !! m = Some me'
                  ∧ MethodCoverage.covered_conditions me
                    ≤ MethodCoverage.covered_conditions me'
                  ∧ (MethodCoverage.coverage_percentage me
                     <= MethodCoverage.coverage_percentage me')%Q.
Proof.
  intros analyzer E l.
  destruct (measure_Ok analyzer E) as (self1 & -> & Hkeys1 & Hset1).
  destruct (measure_Ok analyzer (E ∪ {[l]})) as (self2 & -> & Hkeys2 & Hset2).
  set (keys := condition_lines (extracted analyzer)) in *.
  do 2 eexists. split; [reflexivity|]. split; [reflexivity|]. entry_simpl.
  assert (file_covered E keys ≤ file_covered (E ∪ {[l]}) keys) as Hfile.
  { apply count_mono. intros x _ Hx. apply bool_decide_eq_true in Hx.
    apply bool_decide_eq_true, elem_of_union. by left. }
  split; [done|]. split; [by apply percentage_mono|].
  intros c e Hc. apply lookup_fmap_Some in Hc as (class_info & <- & Hc).
  eexists. split; [by rewrite lookup_fmap, Hc|]. entry_simpl.
  assert (class_covered E class_info keys
          ≤ class_covered (E ∪ {[l]}) class_info keys) as Hclass.
  { apply count_mono. intros x _ Hx. apply andb_true_iff in Hx as [Hx Hr].
    apply bool_decide_eq_true in Hx.
    apply andb_true_iff. split; [|done].
    apply bool_decide_eq_true, elem_of_union. by left. }
  split; [done|]. split; [by apply percentage_mono|].
  intros m me Hm. apply lookup_fmap_Some in Hm as (range & <- & Hm).
  eexists. split; [by rewrite lookup_fmap, Hm|]. entry_simpl.
  rewrite Hkeys1, Hkeys2.
  assert (count (λ x, ConditionCoverageAnalyzer.in_range range.1 range.2 x
                      && bool_decide
                           (x ∈ ConditionCoverageAnalyzer.covered_conditions self1))
                keys
          ≤ count (λ x, ConditionCoverageAnalyzer.in_range range.1 range.2 x
                        && bool_decide
                             (x ∈ ConditionCoverageAnalyzer.covered_conditions self2))
                  keys) as Hmethod.
  { apply count_mono. intros x Hxk Hx. apply andb_true_iff in Hx as [Hr Hx].
    apply bool_decide_eq_true in Hx.
    apply andb_true_iff. split; [done|].
    apply bool_decide_eq_true, Hset2.
    apply Hset1 in Hx as [Hx|[_ Hx]]; [by left|].
    right. split; [done|]. apply elem_of_union. by left. }
  split; [done|]. by apply percentage_mono.
Qed.

(** ** The extractor *)

(** C1, on the code. [conditions] is keyed by line: a node on a line that
    already holds one replaces it, and [find_conditions] returns the number
    of lines that hold a condition node.  The [BoolOp] and the [Compare] of
    [if a == b and c:] are two condition nodes on one line, and the total
    is 1.  The class counter, incremented in the same three methods, counts
    both: inside a method of [Foo] the class total is 2 in a file whose
    total is 1, and once the line ran [Foo] is at 1 of 2 while the file
    and the method are at 1 of 1. *)
Theorem same_line_conditions_count_once :
  (∀ self : ConditionCoverageAnalyzer.t,
     (ConditionCoverageAnalyzer.find_conditions self).1
     = size (list_to_set (C := gset Z)
               (condition_node_lines (ConditionCoverageAnalyzer.tree self))))
  ∧ length (condition_node_lines comparison_and_boolop) = 2
  ∧ (ConditionCoverageAnalyzer.find_conditions
       (ConditionCoverageAnalyzer.of_tree
          ("if a == b and c:" +:+ nl +:+ "    pass") comparison_and_boolop)).1
    = 1
  ∧ ConditionCoveragePlugin.measure
      (ConditionCoverageAnalyzer.of_tree "" comparison_and_boolop_in_method)
      {[3%Z]}
    = Ok (ConditionCoveragePlugin.mk_file_result 100 1 1
            {["Foo" := ClassCoverage.mk 2 1 (100 # 2)
                         {["bar" := MethodCoverage.mk 1 1 100]}]}).
Proof.
  split; [|split; [reflexivity|split; vm_compute; reflexivity]].
  intros self. unfold ConditionCoverageAnalyzer.find_conditions. simpl.
  rewrite <- size_dom, visit_dom. simpl.
  by rewrite dom_empty_L, (left_id_L ∅ (∪)).
Qed.

(** The line of [if a and not b:] inside a method: two condition nodes on
    one line.  The file and the method count the line, the class counts the
    nodes, and the covered count of the class counts the line again. *)
Example boolop_and_not_in_method_report :
  ConditionCoveragePlugin.measure
    (ConditionCoverageAnalyzer.of_tree "" boolop_and_not_in_method) {[3%Z]}
  = Ok (ConditionCoveragePlugin.mk_file_result 100 1 1
          {["Foo" := ClassCoverage.mk 2 1 (100 # 2)
                       {["bar" := MethodCoverage.mk 1 1 100]}]}).
Proof. vm_compute. reflexivity. Qed.

(** The class of [class_with_async_method], measured with line 3 executed:
    one condition, covered, and no method. *)
Example class_with_async_method_report :
  ConditionCoveragePlugin.measure
    (ConditionCoverageAnalyzer.of_tree "" class_with_async_method) {[3%Z]}
  = Ok (ConditionCoveragePlugin.mk_file_result 100 1 1
          {["A" := ClassCoverage.mk 1 1 100 ∅]}).
Proof. vm_compute. reflexivity. Qed.

(** ** The per-file boundary of the plugin *)

Section per_file_boundary.
Variable abspath : string → string.
Variable measured_files : gset string.
Variable coverage_lines : string → option (list Z).
Variable read_file : string → result string.
Variable ast_parse : string → result AST.

Local Abbreviation process_file :=
  (ConditionCoveragePlugin.process_file coverage_lines read_file ast_parse).
Local Abbreviation calculate_step :=
  (ConditionCoveragePlugin.calculate_step
     abspath measured_files coverage_lines read_file ast_parse).
Local Abbreviation _calculate_condition_coverage :=
  (ConditionCoveragePlugin._calculate_condition_coverage
     abspath measured_files coverage_lines read_file ast_parse).
Local Abbreviation stored :=
  (stored abspath measured_files coverage_lines read_file ast_parse).
Local Abbreviation logged :=
  (logged abspath measured_files coverage_lines read_file ast_parse).

Lemma calculate_step_eq st file_path :
  calculate_step st file_path
  = (match stored file_path with
     | Some r => <[file_path := r]> st.1
     | None => st.1
     end,
     st.2 ++ logged file_path).
Proof.
  unfold ConditionCoveragePlugin.calculate_step, stored, logged.
  destruct (bool_decide (abspath file_path ∉ measured_files)); [done|].
  by destruct (process_file file_path (abspath file_path)).
Qed.

Lemma calculate_log files st :
  (_calculate_condition_coverage files st).2 = st.2 ++ (files ≫= logged).
Proof.
  unfold ConditionCoveragePlugin._calculate_condition_coverage.
  revert st. induction files as [|f files IH]; intros st; simpl.
  - by rewrite (right_id_L [] (++)).
  - rewrite IH, calculate_step_eq. simpl. by rewrite <- (assoc_L (++)).
Qed.

Lemma calculate_results files st g :
  (_calculate_condition_coverage files st).1 !! g
  = match (if bool_decide (g ∈ files) then stored g else None) with
    | Some r => Some r
    | None => st.1 !! g
    end.
Proof.
  unfold ConditionCoveragePlugin._calculate_condition_coverage.
  revert st. induction files as [|f files IH]; intros st; simpl.
  - done.
  - rewrite IH, calculate_step_eq. simpl.
    destruct (decide (f = g)) as [->|Hne].
    + rewrite (bool_decide_eq_true_2 (g ∈ g :: files)) by by left.
      destruct (bool_decide (g ∈ files)).
      * destruct (stored g); [done|]. done.
      * destruct (stored g); [by rewrite lookup_insert_eq|done].
    + assert (bool_decide (g ∈ f :: files) = bool_decide (g ∈ files)) as ->.
      { apply bool_decide_ext. rewrite elem_of_cons.
        split; [intros [?|?]; [congruence|done]|by right]. }
      destruct (if bool_decide (g ∈ files) then stored g else None); [done|].
      destruct (stored f); [by rewrite lookup_insert_ne|done].
Qed.

(** C7. When [ast.parse] raises on the text of a measured file, building
    the analyzer raises the same exception; the loop over the files
    catches it: the file gets no entry in the results, an error record
    with the exception is logged for it, and every measured file of the
    batch whose processing succeeds has its entry. *)
Theorem parse_error_skips_only_the_file :
  ∀ (files_to_analyze : list string) (file_path source : string) (e : exn),
    file_path ∈ files_to_analyze →
    abspath file_path ∈ measured_files →
    read_file file_path = Ok source →
    ast_parse source = Raise e →
    ConditionCoverageAnalyzer.init ast_parse source = Raise e
    ∧ ∃ results log,
        _calculate_condition_coverage files_to_analyze (∅, []) = (results, log)
        ∧ results !! file_path = None
        ∧ ConditionCoveragePlugin.Error_processing file_path e ∈ log
        ∧ ∀ g r,
            g ∈ files_to_analyze →
            abspath g ∈ measured_files →
            process_file g (abspath g) = Ok r →
            results !! g = Some r.
Proof.
  intros files file_path source e Hin Hmeasured Hread Hparse.
  assert (ConditionCoverageAnalyzer.init ast_parse source = Raise e) as Hinit.
  { unfold ConditionCoverageAnalyzer.init. by rewrite Hparse. }
  split; [done|].
  assert (process_file file_path (abspath file_path) = Raise e) as Hprocess.
  { unfold ConditionCoveragePlugin.process_file.
    rewrite Hread. simpl. by rewrite Hinit. }
  assert (bool_decide (abspath file_path ∉ measured_files) = false) as Hm.
  { apply bool_decide_eq_false. by intros []. }
  destruct (_calculate_condition_coverage files (∅, [])) as [results log] eqn:Hrun.
  exists results, log. split; [done|].
  assert (results = (_calculate_condition_coverage files (∅, [])).1) as ->
    by by rewrite Hrun.
  assert (log = (_calculate_condition_coverage files (∅, [])).2) as ->
    by by rewrite Hrun.
  clear Hrun. split; [|split].
  - rewrite calculate_results. unfold stored. rewrite Hm, Hprocess.
    by destruct (bool_decide (file_path ∈ files)).
  - rewrite calculate_log. simpl. apply list_elem_of_bind.
    exists file_path. split; [|done]. unfold logged. rewrite Hm, Hprocess.
    apply list_elem_of_here.
  - intros g r Hg Hgm Hgr. rewrite calculate_results.
    rewrite (bool_decide_eq_true_2 _ Hg). unfold stored.
    rewrite bool_decide_eq_false_2 by by intros []. by rewrite Hgr.
Qed.
End per_file_boundary.

(** C7 on the batch: the hypotheses hold for [/pkg/bad.py]. *)
Lemma parse_error_skips_only_the_file_witness :
  ConditionCoverageAnalyzer.init batch_ast_parse "if x >"
  = Raise (SyntaxError "invalid syntax")
  ∧ ∃ results log,
      ConditionCoveragePlugin._calculate_condition_coverage
        id batch_measured_files (λ _, None) batch_read_file batch_ast_parse
        ["/pkg/bad.py"; "/pkg/good.py"] (∅, [])
      = (results, log)
      ∧ results !! "/pkg/bad.py" = None
      ∧ ConditionCoveragePlugin.Error_processing
          "/pkg/bad.py" (SyntaxError "invalid syntax") ∈ log
      ∧ ∀ g r,
          g ∈ ["/pkg/bad.py"; "/pkg/good.py"] →
          id g ∈ batch_measured_files →
          ConditionCoveragePlugin.process_file
            (λ _, None) batch_read_file batch_ast_parse g (id g) = Ok r →
          results !! g = Some r.
Proof.
  apply (parse_error_skips_only_the_file
           id batch_measured_files (λ _, None) batch_read_file batch_ast_parse
           ["/pkg/bad.py"; "/pkg/good.py"] "/pkg/bad.py" "if x >"
           (SyntaxError "invalid syntax")).
  - apply list_elem_of_here.
  - apply elem_of_union_l, elem_of_singleton. reflexivity.
  - reflexivity.
  - reflexivity.
Defined.

(** The batch, run: the file that does not parse is logged and left out, the
    other one is stored. *)
Example batch_outcome :
  ConditionCoveragePlugin._calculate_condition_coverage
    id batch_measured_files (λ _, None) batch_read_file batch_ast_parse
    ["/pkg/bad.py"; "/pkg/good.py"] (∅, [])
  = ({["/pkg/good.py" := ConditionCoveragePlugin.mk_file_result 100 0 0 ∅]},
     [ConditionCoveragePlugin.Error_processing
        "/pkg/bad.py" (SyntaxError "invalid syntax");
      ConditionCoveragePlugin.Info_file "/pkg/good.py";
      ConditionCoveragePlugin.Info_total_conditions 0;
      ConditionCoveragePlugin.Info_covered_conditions 0;
      ConditionCoveragePlugin.Info_coverage 100]).
Proof. vm_compute. reflexivity. Qed.

(** ** Where the code departs from the claims *)

(** C5, on the code. Leaving a class definition sets the current class to
    [None], whatever it was before.  In [method_after_nested_class] the
    method [m] and its condition on line 5 come after the nested class [B]
    inside [A]: [A] gets no method and a total of 0, and, line 5 having run,
    1 covered condition. *)
Theorem class_exit_forgets_enclosing_class :
  (∀ n l e ch (self : ConditionVisitor.t),
     ConditionVisitor.current_class (ConditionVisitor.visit (ClassDef n l e ch) self)
     = None)
  ∧ ConditionCoveragePlugin.measure
      (ConditionCoverageAnalyzer.of_tree "" method_after_nested_class) {[5%Z]}
    = Ok (ConditionCoveragePlugin.mk_file_result 100 1 1
            (<["A" := ClassCoverage.mk 0 1 100 ∅]>
               {["B" := ClassCoverage.mk 0 0 100 ∅]})).
Proof.
  split; [apply visit_ClassDef_current_class|]. vm_compute. reflexivity.
Qed.

(** C2, on the code. The class total is the visitor's counter, not a count
    by range.  In [condition_in_nested_class] line 4 lies in the range of
    [A], whose total is 0 (and whose covered count is 1 once line 4 ran).
    In [condition_in_nested_def] the class total is 1 and the totals of its
    two methods, [m] and the nested [inner], add up to 2. *)
Theorem class_total_is_not_a_range_count :
  (∃ class_info,
     ConditionCoverageAnalyzer.classes
       (extracted (ConditionCoverageAnalyzer.of_tree "" condition_in_nested_class))
     !! "A" = Some class_info
     ∧ ClassInfo.conditions class_info = 0
     ∧ lines_in_class
         (extracted (ConditionCoverageAnalyzer.of_tree "" condition_in_nested_class))
         class_info = 1)
  ∧ ConditionCoveragePlugin.measure
      (ConditionCoverageAnalyzer.of_tree "" condition_in_nested_class) {[4%Z]}
    = Ok (ConditionCoveragePlugin.mk_file_result 100 1 1
            (<["A" := ClassCoverage.mk 0 1 100 ∅]>
               {["B" := ClassCoverage.mk 1 1 100
                          {["f" := MethodCoverage.mk 1 1 100]}]}))
  ∧ ConditionCoveragePlugin.measure
      (ConditionCoverageAnalyzer.of_tree "" condition_in_nested_def) {[4%Z]}
    = Ok (ConditionCoveragePlugin.mk_file_result 100 1 1
            {["A" := ClassCoverage.mk 1 1 100
                       (<["m" := MethodCoverage.mk 1 1 100]>
                          {["inner" := MethodCoverage.mk 1 1 100]})]}).
Proof.
  split; [|split].
  - eexists. split; [vm_compute; reflexivity|]. split; vm_compute; reflexivity.
  - vm_compute. reflexivity.
  - vm_compute. reflexivity.
Qed.

(** C4, on the code. For a package whose only measured file, [x = 1], has no
    condition, the file's own percentage is 100 and the report's top-level
    figure is 0; so it is for an empty batch. *)
Theorem report_of_no_conditions_is_zero :
  ∀ relpath : string → string,
    ConditionCoveragePlugin.measure
      (ConditionCoverageAnalyzer.of_tree "x = 1" (Mod [Assign Name Constant])) ∅
    = Ok (ConditionCoveragePlugin.mk_file_result 100 0 0 ∅)
    ∧ ConditionCoveragePlugin._generate_report relpath
        {["/pkg/consts.py" := ConditionCoveragePlugin.mk_file_result 100 0 0 ∅]}
      = Ok (ConditionCoveragePlugin.mk_report_data
              {[relpath "/pkg/consts.py" :=
                  ConditionCoveragePlugin.mk_file_result 100 0 0 ∅]}
              0)
    ∧ ConditionCoveragePlugin._generate_report relpath ∅
      = Ok (ConditionCoveragePlugin.mk_report_data ∅ 0).
Proof.
  intros relpath. split; [vm_compute; reflexivity|]. split; [|reflexivity].
  unfold ConditionCoveragePlugin._generate_report.
  rewrite map_to_list_singleton. reflexivity.
Qed.


(** * Further properties *)

(** ** Invariants of the visitor *)

Section visit_preserves.
Variable I : ConditionVisitor.t → Prop.
Variable good : AST → Prop.
Hypothesis I_enter : ∀ n l e ch self,
  good (ClassDef n l e ch) → I self →
  I (ConditionVisitor.enter_class n l (default l e) self).
Hypothesis I_exit : ∀ self, I self → I (ConditionVisitor.set_current_class None self).
Hypothesis I_def : ∀ n l e ch self,
  good (FunctionDef n l e ch) → I self →
  I (ConditionVisitor.update_current_class
       (λ c, ClassInfo.add_method c n l (default l e)) self).
Hypothesis I_condition : ∀ l node self,
  I self →
  I (ConditionVisitor.update_current_class ClassInfo.incr_conditions
       (ConditionVisitor.record_condition l node self)).

Lemma generic_visit_preserves (ch : list AST) :
  Forall (λ t, (∀ x, x ∈ nodes t → good x) →
               ∀ self, I self → I (ConditionVisitor.visit t self)) ch →
  (∀ x, x ∈ flat_map nodes ch → good x) →
  ∀ self, I self → I (ConditionVisitor.generic_visit ch self).
Proof using Type.
  induction 1 as [|c ch Hc _ IH]; intros Hgood self Hself; [done|].
  rewrite generic_visit_cons. apply IH.
  - intros x Hx. apply Hgood. simpl. apply elem_of_app. by right.
  - apply Hc; [|done]. intros x Hx. apply Hgood. simpl. apply elem_of_app. by left.
Qed.

(** An invariant that survives the four things the visitor does survives
    the visit of any tree all of whose nodes are [good]. *)
Lemma visit_preserves (t : AST) :
  (∀ x, x ∈ nodes t → good x) →
  ∀ self, I self → I (ConditionVisitor.visit t self).
Proof using All.
  induction t as [n l e ch IH|n l e ch IH|n l e ch IH|l ch IH|l ch IH
                 |op l ch IH|ch IH] using AST_forall_ind;
    intros Hgood self Hself;
    assert (∀ x, x ∈ flat_map nodes ch → good x) as Hch
      by (intros x Hx; apply Hgood; simpl; by right).
  - rewrite visit_ClassDef. apply I_exit, generic_visit_preserves; [done..|].
    apply (I_enter n l e ch); [|done]. apply Hgood. simpl. by left.
  - rewrite visit_FunctionDef. apply generic_visit_preserves; [done..|].
    apply (I_def n l e ch); [|done]. apply Hgood. simpl. by left.
  - rewrite visit_AsyncFunctionDef. by apply generic_visit_preserves.
  - rewrite visit_Compare. apply generic_visit_preserves; [done..|].
    by apply I_condition.
  - rewrite visit_BoolOp. apply generic_visit_preserves; [done..|].
    by apply I_condition.
  - destruct (decide (op = Not)) as [->|Hop].
    + rewrite visit_UnaryOp_Not. apply generic_visit_preserves; [done..|].
      by apply I_condition.
    + rewrite visit_UnaryOp_other by done. by apply generic_visit_preserves.
  - rewrite visit_Other. by apply generic_visit_preserves.
Qed.
End visit_preserves.

Lemma heap_update_lookup f (self : ConditionVisitor.t) a class_info' :
  ConditionVisitor.heap (ConditionVisitor.update_current_class f self) !! a
  = Some class_info' →
  ∃ class_info,
    ConditionVisitor.heap self !! a = Some class_info
    ∧ (class_info' = class_info ∨ class_info' = f class_info).
Proof.
  unfold ConditionVisitor.update_current_class.
  destruct (ConditionVisitor.current_class self) as [cur|]; [|by eauto].
  cbn [ConditionVisitor.heap]. intros Hlook.
  destruct (decide (cur = a)) as [->|Hne].
  - rewrite list_lookup_alter_eq in Hlook.
    destruct (ConditionVisitor.heap self !! a) as [class_info|]; simplify_eq/=.
    by eauto.
  - rewrite list_lookup_alter_ne in Hlook by done. by eauto.
Qed.

Lemma classes_update f (self : ConditionVisitor.t) :
  ConditionVisitor.classes (ConditionVisitor.update_current_class f self)
  = ConditionVisitor.classes self.
Proof.
  unfold ConditionVisitor.update_current_class.
  by destruct (ConditionVisitor.current_class self).
Qed.

Lemma current_class_update f (self : ConditionVisitor.t) :
  ConditionVisitor.current_class (ConditionVisitor.update_current_class f self)
  = ConditionVisitor.current_class self.
Proof.
  unfold ConditionVisitor.update_current_class.
  destruct (ConditionVisitor.current_class self) eqn:Hcur; [done|by rewrite Hcur].
Qed.

Lemma heap_update_length f (self : ConditionVisitor.t) :
  length (ConditionVisitor.heap (ConditionVisitor.update_current_class f self))
  = length (ConditionVisitor.heap self).
Proof.
  unfold ConditionVisitor.update_current_class.
  destruct (ConditionVisitor.current_class self); [|done].
  cbn [ConditionVisitor.heap]. apply length_alter.
Qed.

Lemma heap_enter_lookup n s e (self : ConditionVisitor.t) a class_info :
  ConditionVisitor.heap (ConditionVisitor.enter_class n s e self) !! a
  = Some class_info →
  ConditionVisitor.heap self !! a = Some class_info
  ∨ (a = length (ConditionVisitor.heap self) ∧ class_info = ClassInfo.init n s e).
Proof.
  cbn [ConditionVisitor.enter_class ConditionVisitor.heap]. intros Hlook.
  apply lookup_snoc_Some in Hlook as [[_ Hlook]|[-> <-]]; by eauto.
Qed.

(** *** Names of [classes] lead to objects of that name *)

Lemma classes_valid_update f (self : ConditionVisitor.t) :
  (∀ class_info, ClassInfo.name (f class_info) = ClassInfo.name class_info) →
  classes_valid self →
  classes_valid (ConditionVisitor.update_current_class f self).
Proof.
  intros Hf Hself c a Hc. rewrite classes_update in Hc.
  destruct (Hself c a Hc) as (class_info & Hlook & Hname).
  unfold ConditionVisitor.update_current_class.
  destruct (ConditionVisitor.current_class self) as [cur|]; [|by eauto].
  cbn [ConditionVisitor.heap].
  destruct (decide (cur = a)) as [->|Hne].
  - exists (f class_info). rewrite list_lookup_alter_eq, Hlook.
    split; [done|]. by rewrite Hf.
  - exists class_info. by rewrite list_lookup_alter_ne.
Qed.

Lemma visit_classes_valid (t : AST) (self : ConditionVisitor.t) :
  classes_valid self → classes_valid (ConditionVisitor.visit t self).
Proof.
  revert self.
  apply (visit_preserves classes_valid (λ _, True)); [| | | |done].
  - intros n l e ch v _ Hv c a Hc.
    cbn [ConditionVisitor.enter_class ConditionVisitor.classes
         ConditionVisitor.heap] in *.
    destruct (decide (n = c)) as [->|Hne].
    + rewrite lookup_insert_eq in Hc. injection Hc as <-.
      eexists. split; [by apply list_lookup_middle|done].
    + rewrite lookup_insert_ne in Hc by done.
      destruct (Hv c a Hc) as (class_info & Hlook & Hname).
      exists class_info. split; [by apply lookup_app_l_Some|done].
  - done.
  - intros n l e ch v _ Hv. by apply classes_valid_update.
  - intros l node v Hv. by apply classes_valid_update.
Qed.

(** *** Objects bear the name and range of a class definition *)

Lemma visit_objects_within (N : list (string * (Z * Z))) (t : AST)
    (self : ConditionVisitor.t) :
  (∀ x, x ∈ nodes t → class_entry_in N x) →
  objects_within N self → objects_within N (ConditionVisitor.visit t self).
Proof.
  intros Hnodes. revert self.
  apply (visit_preserves (objects_within N) (class_entry_in N)); [| | | |done].
  - intros n l e ch v Hgood Hv a class_info Hlook.
    apply heap_enter_lookup in Hlook as [Hlook|[_ ->]]; [by eapply Hv|done].
  - done.
  - intros n l e ch v _ Hv a class_info' Hlook.
    apply heap_update_lookup in Hlook as (class_info & Hlook & [->| ->]);
      exact (Hv a class_info Hlook).
  - intros l node v Hv a class_info' Hlook.
    apply heap_update_lookup in Hlook as (class_info & Hlook & [->| ->]);
      exact (Hv a class_info Hlook).
Qed.

(** *** Method-table entries are name and range of a function definition *)

Lemma visit_method_entries_within (M : list (string * (Z * Z))) (t : AST)
    (self : ConditionVisitor.t) :
  (∀ x, x ∈ nodes t → def_entry_in M x) →
  method_entries_within M self →
  method_entries_within M (ConditionVisitor.visit t self).
Proof.
  intros Hnodes. revert self.
  apply (visit_preserves (method_entries_within M) (def_entry_in M)); [| | | |done].
  - intros n l e ch v _ Hv a class_info m range Hlook Hm.
    apply heap_enter_lookup in Hlook as [Hlook|[_ ->]]; [by eapply Hv|done].
  - done.
  - intros n l e ch v Hgood Hv a class_info' m range Hlook Hm.
    apply heap_update_lookup in Hlook as (class_info & Hlook & [->| ->]);
      [by eapply Hv|].
    cbn [ClassInfo.add_method ClassInfo.methods] in Hm.
    destruct (decide (n = m)) as [->|Hne].
    + rewrite lookup_insert_eq in Hm. by injection Hm as <-.
    + rewrite lookup_insert_ne in Hm by done. by eapply Hv.
  - intros l node v Hv a class_info' m range Hlook Hm.
    apply heap_update_lookup in Hlook as (class_info & Hlook & [->| ->]);
      exact (Hv a class_info m range Hlook Hm).
Qed.

(** *** What a visit leaves alone *)

Lemma frame_refl (self : ConditionVisitor.t) : frame self self.
Proof. repeat split; [done|by left]. Qed.

Lemma visit_frame (before : ConditionVisitor.t) (t : AST) (self : ConditionVisitor.t) :
  frame before self → frame before (ConditionVisitor.visit t self).
Proof.
  assert (∀ f v, frame before v →
                 frame before (ConditionVisitor.update_current_class f v)) as Hupd.
  { intros f v (Hlen & Hcur & Hobj). split; [|split].
    - by rewrite heap_update_length.
    - by rewrite current_class_update.
    - intros a Ha Hne. rewrite <- (Hobj a Ha Hne).
      unfold ConditionVisitor.update_current_class.
      destruct (ConditionVisitor.current_class v) as [cur|] eqn:Hv; [|done].
      cbn [ConditionVisitor.heap]. apply list_lookup_alter_ne.
      destruct Hcur as [Hcur|[Hcur|(a' & Hcur & Ha')]];
        [congruence|done|]. injection Hcur as <-. lia. }
  revert self.
  apply (visit_preserves (frame before) (λ _, True)); [| | | |done].
  - intros n l e ch v _ (Hlen & Hcur & Hobj). split; [|split].
    + cbn [ConditionVisitor.enter_class ConditionVisitor.heap].
      rewrite length_app. lia.
    + right. right. eexists. split; [done|done].
    + intros a Ha Hne. rewrite <- (Hobj a Ha Hne).
      cbn [ConditionVisitor.enter_class ConditionVisitor.heap].
      apply lookup_app_l. lia.
  - intros v (Hlen & Hcur & Hobj). split; [done|]. split; [by right; left|done].
  - intros n l e ch v _ Hv. by apply Hupd.
  - intros l node v Hv. by apply (Hupd _ (ConditionVisitor.record_condition l node v)).
Qed.

Lemma visit_keeps_class (n : string) (a : nat) (t : AST) (self : ConditionVisitor.t) :
  (∀ x, x ∈ nodes t → not_class_named n x) →
  ConditionVisitor.classes self !! n = Some a →
  ConditionVisitor.classes (ConditionVisitor.visit t self) !! n = Some a.
Proof.
  intros Hnodes. revert self.
  apply (visit_preserves (λ v, ConditionVisitor.classes v !! n = Some a)
                         (not_class_named n)); [| | | |done].
  - intros n' l e ch v Hgood Hv.
    cbn [ConditionVisitor.enter_class ConditionVisitor.classes].
    by rewrite lookup_insert_ne.
  - done.
  - intros n' l e ch v _ Hv. by rewrite classes_update.
  - intros l node v Hv. by rewrite classes_update.
Qed.

(** Outside a class, a visit ends outside a class. *)
Lemma generic_visit_current_None (ch : list AST) :
  Forall (λ t, ∀ self,
            ConditionVisitor.current_class self = None →
            ConditionVisitor.current_class (ConditionVisitor.visit t self) = None)
         ch →
  ∀ self,
    ConditionVisitor.current_class self = None →
    ConditionVisitor.current_class (ConditionVisitor.generic_visit ch self) = None.
Proof.
  induction 1 as [|c ch Hc _ IH]; intros self Hself; [done|].
  rewrite generic_visit_cons. by apply IH, Hc.
Qed.

Lemma visit_current_None (t : AST) (self : ConditionVisitor.t) :
  ConditionVisitor.current_class self = None →
  ConditionVisitor.current_class (ConditionVisitor.visit t self) = None.
Proof.
  revert self.
  induction t as [n l e ch IH|n l e ch IH|n l e ch IH|l ch IH|l ch IH
                 |op l ch IH|ch IH] using AST_forall_ind;
    intros self Hself.
  - by rewrite visit_ClassDef.
  - rewrite visit_FunctionDef. apply generic_visit_current_None; [done|].
    by rewrite current_class_update.
  - rewrite visit_AsyncFunctionDef. by apply generic_visit_current_None.
  - rewrite visit_Compare. apply generic_visit_current_None; [done|].
    by rewrite current_class_update.
  - rewrite visit_BoolOp. apply generic_visit_current_None; [done|].
    by rewrite current_class_update.
  - destruct (decide (op = Not)) as [->|Hop].
    + rewrite visit_UnaryOp_Not. apply generic_visit_current_None; [done|].
      by rewrite current_class_update.
    + rewrite visit_UnaryOp_other by done. by apply generic_visit_current_None.
  - rewrite visit_Other. by apply generic_visit_current_None.
Qed.

(** *** The definitions of a tree, read off its nodes *)

Lemma class_entry_in_mono (N N' : list (string * (Z * Z))) (x : AST) :
  (∀ p, p ∈ N → p ∈ N') → class_entry_in N x → class_entry_in N' x.
Proof. intros HN. destruct x; simpl; auto. Qed.

Lemma def_entry_in_mono (M M' : list (string * (Z * Z))) (x : AST) :
  (∀ p, p ∈ M → p ∈ M') → def_entry_in M x → def_entry_in M' x.
Proof. intros HM. destruct x; simpl; auto. Qed.

Lemma flat_map_nodes_class_entries (ch : list AST) :
  Forall (λ t, ∀ x, x ∈ nodes t → class_entry_in (class_entries t) x) ch →
  ∀ x, x ∈ flat_map nodes ch → class_entry_in (flat_map class_entries ch) x.
Proof.
  induction 1 as [|c ch Hc _ IH]; intros x Hx; simpl in *.
  - by apply elem_of_nil in Hx.
  - apply elem_of_app in Hx as [Hx|Hx].
    + eapply class_entry_in_mono; [|by apply Hc].
      intros p Hp. apply elem_of_app. by left.
    + eapply class_entry_in_mono; [|by apply IH].
      intros p Hp. apply elem_of_app. by right.
Qed.

Lemma nodes_class_entries (t : AST) :
  ∀ x, x ∈ nodes t → class_entry_in (class_entries t) x.
Proof.
  induction t as [n l e ch IH|n l e ch IH|n l e ch IH|l ch IH|l ch IH
                 |op l ch IH|ch IH] using AST_forall_ind;
    intros x Hx; simpl in Hx; apply elem_of_cons in Hx as [->|Hx];
    try done; try (by apply flat_map_nodes_class_entries).
  - simpl. by left.
  - eapply class_entry_in_mono; [|by apply flat_map_nodes_class_entries].
    intros p Hp. simpl. by right.
Qed.

Lemma flat_map_nodes_def_entries (ch : list AST) :
  Forall (λ t, ∀ x, x ∈ nodes t → def_entry_in (def_entries t) x) ch →
  ∀ x, x ∈ flat_map nodes ch → def_entry_in (flat_map def_entries ch) x.
Proof.
  induction 1 as [|c ch Hc _ IH]; intros x Hx; simpl in *.
  - by apply elem_of_nil in Hx.
  - apply elem_of_app in Hx as [Hx|Hx].
    + eapply def_entry_in_mono; [|by apply Hc].
      intros p Hp. apply elem_of_app. by left.
    + eapply def_entry_in_mono; [|by apply IH].
      intros p Hp. apply elem_of_app. by right.
Qed.

Lemma nodes_def_entries (t : AST) :
  ∀ x, x ∈ nodes t → def_entry_in (def_entries t) x.
Proof.
  induction t as [n l e ch IH|n l e ch IH|n l e ch IH|l ch IH|l ch IH
                 |op l ch IH|ch IH] using AST_forall_ind;
    intros x Hx; simpl in Hx; apply elem_of_cons in Hx as [->|Hx];
    try done; try (by apply flat_map_nodes_def_entries).
  - simpl. by left.
  - eapply def_entry_in_mono; [|by apply flat_map_nodes_def_entries].
    intros p Hp. simpl. by right.
Qed.

Lemma nodes_not_class_named (n : string) (t : AST) :
  n ∉ (class_entries t).*1 → ∀ x, x ∈ nodes t → not_class_named n x.
Proof.
  intros Hn x Hx. pose proof (nodes_class_entries t x Hx) as Hentry.
  destruct x as [n' l e ch| | | | | |]; try done.
  simpl in *. intros ->. apply Hn.
  apply list_elem_of_fmap. by exists (n, _get_node_lines l e).
Qed.

(** *** The names of [classes] *)

Lemma generic_visit_classes_dom (ch : list AST) :
  Forall (λ t, ∀ self,
            dom (ConditionVisitor.classes (ConditionVisitor.visit t self))
            = dom (ConditionVisitor.classes self)
              ∪ list_to_set (class_entries t).*1) ch →
  ∀ self,
    dom (ConditionVisitor.classes (ConditionVisitor.generic_visit ch self))
    = dom (ConditionVisitor.classes self)
      ∪ list_to_set (flat_map class_entries ch).*1.
Proof.
  induction 1 as [|c ch Hc _ IH]; intros self.
  - simpl. by rewrite (right_id_L ∅ (∪)).
  - rewrite generic_visit_cons, IH, Hc. simpl.
    rewrite fmap_app, list_to_set_app_L. by rewrite (assoc_L (∪)).
Qed.

Lemma visit_classes_dom (t : AST) (self : ConditionVisitor.t) :
  dom (ConditionVisitor.classes (ConditionVisitor.visit t self))
  = dom (ConditionVisitor.classes self) ∪ list_to_set (class_entries t).*1.
Proof.
  revert self.
  induction t as [n l e ch IH|n l e ch IH|n l e ch IH|l ch IH|l ch IH
                 |op l ch IH|ch IH] using AST_forall_ind;
    intros self.
  - rewrite visit_ClassDef.
    cbn [ConditionVisitor.set_current_class ConditionVisitor.classes].
    rewrite generic_visit_classes_dom by done.
    cbn [ConditionVisitor.enter_class ConditionVisitor.classes class_entries].
    rewrite dom_insert_L, fmap_cons. cbn [fst list_to_set].
    by rewrite (comm_L (∪) {[n]}), <- (assoc_L (∪)).
  - rewrite visit_FunctionDef, generic_visit_classes_dom by done.
    by rewrite classes_update.
  - rewrite visit_AsyncFunctionDef. by rewrite generic_visit_classes_dom.
  - rewrite visit_Compare, generic_visit_classes_dom by done.
    by rewrite classes_update.
  - rewrite visit_BoolOp, generic_visit_classes_dom by done.
    by rewrite classes_update.
  - destruct (decide (op = Not)) as [->|Hop].
    + rewrite visit_UnaryOp_Not, generic_visit_classes_dom by done.
      by rewrite classes_update.
    + rewrite visit_UnaryOp_other by done.
      replace (class_entries (UnaryOp op l ch)) with (flat_map class_entries ch)
        by by destruct op.
      by rewrite generic_visit_classes_dom.
  - rewrite visit_Other. by rewrite generic_visit_classes_dom.
Qed.

Lemma classes_valid_init : classes_valid ConditionVisitor.init.
Proof.
  intros c a Hc. cbn [ConditionVisitor.init ConditionVisitor.classes] in Hc.
  by rewrite lookup_empty in Hc.
Qed.

(** What [find_conditions] stores under a class name is the object the
    visitor's [classes] leads to. *)
Lemma extracted_class_lookup (self : ConditionCoverageAnalyzer.t) (c : string)
    (class_info : ClassInfo.t) :
  ConditionCoverageAnalyzer.classes (extracted self) !! c = Some class_info
  ↔ ∃ a,
      ConditionVisitor.classes
        (ConditionVisitor.visit (ConditionCoverageAnalyzer.tree self)
                                ConditionVisitor.init) !! c = Some a
      ∧ ConditionVisitor.heap
          (ConditionVisitor.visit (ConditionCoverageAnalyzer.tree self)
                                  ConditionVisitor.init) !! a = Some class_info.
Proof.
  unfold extracted, ConditionCoverageAnalyzer.find_conditions.
  cbn [snd ConditionCoverageAnalyzer.classes].
  unfold ConditionVisitor.classes_view. rewrite lookup_omap.
  destruct (ConditionVisitor.classes _ !! c) as [a|]; simpl.
  - split; [by eauto|]. by intros (a' & [= <-] & Hlook).
  - split; [done|]. by intros (a' & ? & _).
Qed.

Lemma dom_extracted_conditions (self : ConditionCoverageAnalyzer.t) :
  dom (ConditionCoverageAnalyzer.conditions (extracted self))
  = list_to_set (condition_node_lines (ConditionCoverageAnalyzer.tree self)).
Proof.
  unfold extracted, ConditionCoverageAnalyzer.find_conditions.
  cbn [snd ConditionCoverageAnalyzer.conditions].
  rewrite visit_dom. cbn [ConditionVisitor.init ConditionVisitor.conditions].
  by rewrite dom_empty_L, (left_id_L ∅ (∪)).
Qed.

(** ** A class statement anywhere in the tree *)

Lemma flat_map_nodes_condition_lines (ch : list AST) (line : Z) :
  Forall (λ t, ∀ x, x ∈ nodes t →
               line ∈ condition_node_lines x → line ∈ condition_node_lines t) ch →
  ∀ x, x ∈ flat_map nodes ch →
       line ∈ condition_node_lines x → line ∈ flat_map condition_node_lines ch.
Proof.
  induction 1 as [|c ch Hc _ IH]; intros x Hx Hline; simpl in *.
  - by apply elem_of_nil in Hx.
  - apply elem_of_app. apply elem_of_app in Hx as [Hx|Hx]; [left|right]; eauto.
Qed.

(** The condition lines of a node of a tree are condition lines of the
    tree. *)
Lemma nodes_condition_lines (t : AST) (line : Z) :
  ∀ x, x ∈ nodes t → line ∈ condition_node_lines x → line ∈ condition_node_lines t.
Proof.
  induction t as [n l e ch IH|n l e ch IH|n l e ch IH|l ch IH|l ch IH
                 |op l ch IH|ch IH] using AST_forall_ind;
    intros x Hx Hline; simpl in Hx; apply elem_of_cons in Hx as [->|Hx];
    try done;
    pose proof (flat_map_nodes_condition_lines ch line IH x Hx Hline) as Hch;
    simpl; try done; try (by right).
  destruct op; simpl; try done. by right.
Qed.

Lemma generic_visit_class_object (ch : list AST) :
  Forall (λ t, ∀ self n l e body,
            ClassDef n l e body ∈ nodes t →
            existsb has_ClassDef body = false →
            NoDup (class_entries t).*1 →
            ∃ a,
              ConditionVisitor.classes (ConditionVisitor.visit t self) !! n = Some a
              ∧ ConditionVisitor.heap (ConditionVisitor.visit t self) !! a
                = Some (class_object n l e body)
              ∧ ConditionVisitor.current_class (ConditionVisitor.visit t self)
                = None) ch →
  ∀ self n l e body,
    ClassDef n l e body ∈ flat_map nodes ch →
    existsb has_ClassDef body = false →
    NoDup (flat_map class_entries ch).*1 →
    ∃ a,
      ConditionVisitor.classes (ConditionVisitor.generic_visit ch self) !! n = Some a
      ∧ ConditionVisitor.heap (ConditionVisitor.generic_visit ch self) !! a
        = Some (class_object n l e body)
      ∧ ConditionVisitor.current_class (ConditionVisitor.generic_visit ch self)
        = None.
Proof.
  induction 1 as [|c ch Hc _ IH]; intros self n l e body Hx Hno Hnames.
  - by apply elem_of_nil in Hx.
  - simpl in Hx, Hnames. rewrite fmap_app in Hnames.
    apply NoDup_app in Hnames as (Hnc & Hdisj & Hnch).
    rewrite generic_visit_cons. apply elem_of_app in Hx as [Hx|Hx].
    + destruct (Hc self n l e body Hx Hno Hnc) as (a & Hclass & Hheap & Hcur).
      set (s1 := ConditionVisitor.visit c self) in *.
      rewrite <- (visit_Other ch s1). exists a. split; [|split].
      * apply visit_keeps_class; [|done].
        apply nodes_not_class_named. apply Hdisj.
        pose proof (nodes_class_entries c _ Hx) as Hentry. simpl in Hentry.
        apply list_elem_of_fmap. by exists (n, _get_node_lines l e).
      * destruct (visit_frame s1 (Other ch) s1 (frame_refl s1)) as (_ & _ & Hobj).
        rewrite Hobj; [done| |by rewrite Hcur].
        by apply lookup_lt_Some in Hheap.
      * by apply visit_current_None.
    + by apply IH.
Qed.

(** In a tree whose classes bear distinct names, a class statement with no
    class defined inside it ends the visit with its object under its name,
    wherever it stands and whatever the visitor held before. *)
Lemma visit_class_object (t : AST) :
  ∀ (self : ConditionVisitor.t) n l e body,
    ClassDef n l e body ∈ nodes t →
    existsb has_ClassDef body = false →
    NoDup (class_entries t).*1 →
    ∃ a,
      ConditionVisitor.classes (ConditionVisitor.visit t self) !! n = Some a
      ∧ ConditionVisitor.heap (ConditionVisitor.visit t self) !! a
        = Some (class_object n l e body)
      ∧ ConditionVisitor.current_class (ConditionVisitor.visit t self) = None.
Proof.
  induction t as [n' l' e' ch IH|n' l' e' ch IH|n' l' e' ch IH|l' ch IH|l' ch IH
                 |op l' ch IH|ch IH] using AST_forall_ind;
    intros self n l e body Hx Hno Hnames; simpl in Hx, Hnames;
    apply elem_of_cons in Hx as [Hx|Hx]; try discriminate.
  - injection Hx as -> -> -> ->. exists (length (ConditionVisitor.heap self)).
    split; [|split].
    + rewrite visit_ClassDef.
      destruct (generic_visit_inside_class ch
                  (Forall_true _ ch (λ t, visit_inside_class t)) Hno
                  (ConditionVisitor.enter_class n' l' (default l' e') self)
                  (length (ConditionVisitor.heap self)) eq_refl)
        as (_ & Hclasses & _).
      cbn [ConditionVisitor.set_current_class ConditionVisitor.classes].
      rewrite Hclasses.
      cbn [ConditionVisitor.enter_class ConditionVisitor.classes].
      apply lookup_insert_eq.
    + by apply visit_ClassDef_object.
    + apply visit_ClassDef_current_class.
  - apply NoDup_cons in Hnames as [_ Hnames]. rewrite visit_ClassDef.
    destruct (generic_visit_class_object ch IH
                (ConditionVisitor.enter_class n' l' (default l' e') self)
                n l e body Hx Hno Hnames) as (a & Hclass & Hheap & _).
    exists a. by repeat split.
  - rewrite visit_FunctionDef. by apply generic_visit_class_object.
  - rewrite visit_AsyncFunctionDef. by apply generic_visit_class_object.
  - rewrite visit_Compare. by apply generic_visit_class_object.
  - rewrite visit_BoolOp. by apply generic_visit_class_object.
  - destruct (decide (op = Not)) as [->|Hop].
    + rewrite visit_UnaryOp_Not. by apply generic_visit_class_object.
    + rewrite visit_UnaryOp_other by done. by apply generic_visit_class_object.
  - rewrite visit_Other. by apply generic_visit_class_object.
Qed.

(** The same, of the table [find_conditions] stores. *)
Lemma extracted_class_object (self : ConditionCoverageAnalyzer.t) n l e body :
  ClassDef n l e body ∈ nodes (ConditionCoverageAnalyzer.tree self) →
  existsb has_ClassDef body = false →
  NoDup (class_entries (ConditionCoverageAnalyzer.tree self)).*1 →
  ConditionCoverageAnalyzer.classes (extracted self) !! n
  = Some (class_object n l e body).
Proof.
  intros Hx Hno Hnames. apply extracted_class_lookup.
  destruct (visit_class_object (ConditionCoverageAnalyzer.tree self)
              ConditionVisitor.init n l e body Hx Hno Hnames)
    as (a & Hclass & Hheap & _).
  by eauto.
Qed.

(** C10, on the code. [ConditionVisitor] has no [visit_AsyncFunctionDef]:
    an [async def] goes to [generic_visit].  No class reports a method
    under a name that no [def] bears.  In a tree whose classes bear distinct
    names, a class with no class defined inside it reports every condition
    node of an [async def] of its body in its total, beside those before
    and after it, no method of that name unless a [def] of the body bears
    it, and the file counts the lines of those nodes.  A class statement
    that ends inside the class, before the [async def] or in its body,
    leaves no class current: in [async_method_after_nested_class] and in
    [class_inside_async_method] the condition on line 5 is in the
    [async def] of [A], and [A] reports a total of 0 (and, line 5 having
    run, 1 covered). *)
Theorem async_conditions_follow_current_class :
  (∀ source_code (t : AST) (lines : gset Z) (m : string),
     m ∉ def_names t →
     ∃ r,
       ConditionCoveragePlugin.measure
         (ConditionCoverageAnalyzer.of_tree source_code t) lines = Ok r
       ∧ ∀ c entry,
           ConditionCoveragePlugin.classes r !! c = Some entry →
           ClassCoverage.methods entry !! m = None)
  ∧ (∀ source_code (t : AST) (lines : gset Z) n l e pre m lm em abody post,
       NoDup (class_entries t).*1 →
       ClassDef n l e (pre ++ AsyncFunctionDef m lm em abody :: post) ∈ nodes t →
       existsb has_ClassDef (pre ++ AsyncFunctionDef m lm em abody :: post)
       = false →
       ∃ r entry,
         ConditionCoveragePlugin.measure
           (ConditionCoverageAnalyzer.of_tree source_code t) lines = Ok r
         ∧ ConditionCoveragePlugin.classes r !! n = Some entry
         ∧ ClassCoverage.total_conditions entry
           = length (flat_map condition_node_lines pre)
             + length (flat_map condition_node_lines abody)
             + length (flat_map condition_node_lines post)
         ∧ (m ∉ flat_map def_names (pre ++ AsyncFunctionDef m lm em abody :: post) →
            ClassCoverage.methods entry !! m = None)
         ∧ ConditionCoveragePlugin.total_conditions r
           = size (dom (ConditionCoverageAnalyzer.conditions
                          (extracted
                             (ConditionCoverageAnalyzer.of_tree source_code t))))
         ∧ ∀ line,
             line ∈ flat_map condition_node_lines abody →
             line ∈ dom (ConditionCoverageAnalyzer.conditions
                           (extracted
                              (ConditionCoverageAnalyzer.of_tree source_code t))))
  ∧ length (flat_map condition_node_lines
              [arguments [arg]; If (Compare 5 [Name; Constant]) [Pass]]) = 1
  ∧ ConditionCoveragePlugin.measure
      (ConditionCoverageAnalyzer.of_tree "" async_method_after_nested_class)
      {[5%Z]}
    = Ok (ConditionCoveragePlugin.mk_file_result 100 1 1
            (<["A" := ClassCoverage.mk 0 1 100 ∅]>
               {["B" := ClassCoverage.mk 0 0 100 ∅]}))
  ∧ ConditionCoveragePlugin.measure
      (ConditionCoverageAnalyzer.of_tree "" class_inside_async_method) {[5%Z]}
    = Ok (ConditionCoveragePlugin.mk_file_result 100 1 1
            (<["A" := ClassCoverage.mk 0 1 100 ∅]>
               {["B" := ClassCoverage.mk 0 0 100 ∅]})).
Proof.
  split; [|split; [|split; [reflexivity|split; vm_compute; reflexivity]]].
  - intros source_code t lines m Hm.
    destruct (measure_Ok (ConditionCoverageAnalyzer.of_tree source_code t) lines)
      as (self' & -> & _ & _).
    eexists. split; [reflexivity|]. entry_simpl.
    intros c e Hc. apply lookup_fmap_Some in Hc as (class_info & <- & Hc).
    entry_simpl. rewrite lookup_fmap.
    destruct (ClassInfo.methods class_info !! m) as [range|] eqn:Hrange; [|done].
    destruct Hm.
    by apply (extracted_methods_are_defs
                (ConditionCoverageAnalyzer.of_tree source_code t) c m class_info).
  - intros source_code t lines n l e pre m lm em abody post Hnames Hx Hno.
    set (analyzer := ConditionCoverageAnalyzer.of_tree source_code t).
    set (body := pre ++ AsyncFunctionDef m lm em abody :: post) in *.
    pose proof (extracted_class_object analyzer n l e body Hx Hno Hnames) as Hclass.
    destruct (measure_Ok analyzer lines) as (self' & -> & _ & _).
    do 2 eexists. split; [reflexivity|]. entry_simpl.
    split; [by rewrite lookup_fmap, Hclass|].
    unfold measured_class, class_report. entry_simpl.
    cbn [ClassInfo.set_covered_conditions class_object class_after ClassInfo.init
         ClassInfo.conditions ClassInfo.methods].
    split; [|split; [|split]].
    + unfold body. rewrite flat_map_app, length_app. simpl.
      rewrite length_app. lia.
    + intros Hm. rewrite lookup_fmap, fill_lookup_notin; [done|].
      change (flat_map def_names body) with (def_names (Other body)) in Hm.
      rewrite <- def_entries_names in Hm. exact Hm.
    + by rewrite size_dom.
    + intros line Hline. rewrite dom_extracted_conditions.
      apply elem_of_list_to_set.
      apply (nodes_condition_lines t line (ClassDef n l e body) Hx).
      simpl. unfold body. rewrite flat_map_app. apply elem_of_app. right.
      simpl. apply elem_of_app. by left.
Qed.

(** C10 on [class_with_async_method]: the condition of the [async def]
    counts for [A]. *)
Lemma async_conditions_follow_current_class_witness :
  ∃ r entry,
    ConditionCoveragePlugin.measure
      (ConditionCoverageAnalyzer.of_tree "" class_with_async_method) {[3%Z]}
    = Ok r
    ∧ ConditionCoveragePlugin.classes r !! "A" = Some entry
    ∧ ClassCoverage.total_conditions entry = 0 + 1 + 0
    ∧ ClassCoverage.methods entry !! "m" = None.
Proof.
  destruct (proj1 (proj2 async_conditions_follow_current_class)
              "" class_with_async_method {[3%Z]} "A" 1%Z (Some 4%Z) [] "m" 2%Z
              (Some 4%Z) [arguments [arg]; If (Compare 3 [Name; Constant]) [Pass]]
              [])
    as (r & entry & Hr & Hentry & Htotal & Hm & _).
  - apply NoDup_singleton.
  - apply list_elem_of_further, list_elem_of_here.
  - reflexivity.
  - exists r, entry. split; [done|]. split; [done|]. split; [done|].
    apply Hm. simpl. apply not_elem_of_nil.
Defined.

(** ** What [find_conditions] reads and writes *)

Lemma visit_uncovered (t : AST) (self : ConditionVisitor.t) :
  uncovered self → uncovered (ConditionVisitor.visit t self).
Proof.
  revert self.
  apply (visit_preserves uncovered (λ _, True)); [| | | |done].
  - intros n l e ch v _ Hv a class_info Hlook.
    apply heap_enter_lookup in Hlook as [Hlook|[_ ->]]; [by eapply Hv|done].
  - done.
  - intros n l e ch v _ Hv a class_info' Hlook.
    apply heap_update_lookup in Hlook as (class_info & Hlook & [->| ->]);
      exact (Hv a class_info Hlook).
  - intros l node v Hv a class_info' Hlook.
    apply heap_update_lookup in Hlook as (class_info & Hlook & [->| ->]);
      exact (Hv a class_info Hlook).
Qed.

Lemma dom_extracted_classes (self : ConditionCoverageAnalyzer.t) :
  dom (ConditionCoverageAnalyzer.classes (extracted self))
  = list_to_set (class_entries (ConditionCoverageAnalyzer.tree self)).*1.
Proof.
  pose proof (visit_classes_dom (ConditionCoverageAnalyzer.tree self)
                ConditionVisitor.init) as Hdom.
  cbn [ConditionVisitor.init ConditionVisitor.classes] in Hdom.
  rewrite dom_empty_L, (left_id_L ∅ (∪)) in Hdom. rewrite <- Hdom.
  apply set_eq. intros c. rewrite !elem_of_dom. split.
  - intros [class_info Hc]. apply extracted_class_lookup in Hc as (a & Hc & _).
    by eauto.
  - intros [a Hc].
    destruct (visit_classes_valid (ConditionCoverageAnalyzer.tree self)
                ConditionVisitor.init classes_valid_init c a Hc)
      as (class_info & Hlook & _).
    exists class_info. apply extracted_class_lookup. by eauto.
Qed.

(** [find_conditions] reads the tree of the analyzer and nothing else. *)
Lemma find_conditions_tree (self other : ConditionCoverageAnalyzer.t) :
  ConditionCoverageAnalyzer.tree other = ConditionCoverageAnalyzer.tree self →
  (ConditionCoverageAnalyzer.find_conditions other).1
  = (ConditionCoverageAnalyzer.find_conditions self).1
  ∧ ConditionCoverageAnalyzer.conditions (extracted other)
    = ConditionCoverageAnalyzer.conditions (extracted self)
  ∧ ConditionCoverageAnalyzer.classes (extracted other)
    = ConditionCoverageAnalyzer.classes (extracted self).
Proof.
  unfold extracted, ConditionCoverageAnalyzer.find_conditions.
  intros ->. by repeat split.
Qed.

(** C8. [find_conditions] is a function of the tree, and so of the text
    [ast.parse] made it from.  What it returns and stores is read off the
    tree: the count is the size of [conditions], whose keys are the lines of
    the condition nodes of the tree, and [classes] holds the class names of
    the tree with objects on which nothing is covered yet.  It reads
    nothing else: an analyzer with the same tree and any other source text,
    [conditions], [covered_conditions] and [classes] (those of an earlier
    run, of a finished analysis) gets the same count and the same two
    tables.  It writes nothing else: [source_code], [tree] and
    [covered_conditions] stay.  Run again on its own result, or after
    [analyze_file] with any coverage data, it returns what it returned the
    first time. *)
Theorem find_conditions_depends_on_tree_only :
  ∀ (self other : ConditionCoverageAnalyzer.t) (coverage_data : gmap string (gset Z)),
    ConditionCoverageAnalyzer.tree other = ConditionCoverageAnalyzer.tree self →
    ((ConditionCoverageAnalyzer.find_conditions self).1
     = size (ConditionCoverageAnalyzer.conditions (extracted self))
     ∧ dom (ConditionCoverageAnalyzer.conditions (extracted self))
       = list_to_set (condition_node_lines (ConditionCoverageAnalyzer.tree self))
     ∧ dom (ConditionCoverageAnalyzer.classes (extracted self))
       = list_to_set (class_entries (ConditionCoverageAnalyzer.tree self)).*1
     ∧ ∀ c class_info,
         ConditionCoverageAnalyzer.classes (extracted self) !! c = Some class_info →
         ClassInfo.covered_conditions class_info = 0)
    ∧ ((ConditionCoverageAnalyzer.find_conditions other).1
       = (ConditionCoverageAnalyzer.find_conditions self).1
       ∧ ConditionCoverageAnalyzer.conditions (extracted other)
         = ConditionCoverageAnalyzer.conditions (extracted self)
       ∧ ConditionCoverageAnalyzer.classes (extracted other)
         = ConditionCoverageAnalyzer.classes (extracted self))
    ∧ (ConditionCoverageAnalyzer.source_code (extracted self)
       = ConditionCoverageAnalyzer.source_code self
       ∧ ConditionCoverageAnalyzer.tree (extracted self)
         = ConditionCoverageAnalyzer.tree self
       ∧ ConditionCoverageAnalyzer.covered_conditions (extracted self)
         = ConditionCoverageAnalyzer.covered_conditions self)
    ∧ ConditionCoverageAnalyzer.find_conditions (extracted self)
      = ConditionCoverageAnalyzer.find_conditions self
    ∧ ((ConditionCoverageAnalyzer.find_conditions
          (ConditionCoverageAnalyzer.analyze_file self coverage_data).2).1
       = (ConditionCoverageAnalyzer.find_conditions self).1
       ∧ ConditionCoverageAnalyzer.conditions
           (extracted (ConditionCoverageAnalyzer.analyze_file self coverage_data).2)
         = ConditionCoverageAnalyzer.conditions (extracted self)
       ∧ ConditionCoverageAnalyzer.classes
           (extracted (ConditionCoverageAnalyzer.analyze_file self coverage_data).2)
         = ConditionCoverageAnalyzer.classes (extracted self)).
Proof.
  intros self other coverage_data Htree.
  split; [|split; [|split; [|split]]].
  - split; [done|]. split; [apply dom_extracted_conditions|].
    split; [apply dom_extracted_classes|].
    intros c class_info Hc.
    apply extracted_class_lookup in Hc as (a & _ & Hheap).
    apply (visit_uncovered (ConditionCoverageAnalyzer.tree self)
             ConditionVisitor.init) in Hheap; [done|].
    intros a' class_info' Hlook. by destruct a'.
  - by apply find_conditions_tree.
  - done.
  - done.
  - apply find_conditions_tree.
    pose proof (analyze_file_eq self coverage_data) as Hrun. cbv zeta in Hrun.
    destruct Hrun as (covered_set & -> & _). done.
Qed.

(** C8 on [boolop_and_not_in_method]: an analyzer fresh from [__init__]
    and [stale_analyzer] extract the same. *)
Lemma find_conditions_depends_on_tree_only_witness :
  (ConditionCoverageAnalyzer.find_conditions stale_analyzer).1
  = (ConditionCoverageAnalyzer.find_conditions
       (ConditionCoverageAnalyzer.of_tree "" boolop_and_not_in_method)).1
  ∧ ConditionCoverageAnalyzer.conditions (extracted stale_analyzer)
    = ConditionCoverageAnalyzer.conditions
        (extracted (ConditionCoverageAnalyzer.of_tree "" boolop_and_not_in_method))
  ∧ ConditionCoverageAnalyzer.classes (extracted stale_analyzer)
    = ConditionCoverageAnalyzer.classes
        (extracted (ConditionCoverageAnalyzer.of_tree "" boolop_and_not_in_method)).
Proof.
  pose proof (find_conditions_depends_on_tree_only
                (ConditionCoverageAnalyzer.of_tree "" boolop_and_not_in_method)
                stale_analyzer ∅ eq_refl) as Hrun.
  exact (proj1 (proj2 Hrun)).
Defined.

(** ** The extractor, further *)

(** X1. After [find_conditions], a line is a key of [conditions] exactly
    when a [Compare], a [BoolOp] or a [UnaryOp] with [Not] of the tree
    stands on it; a [UnaryOp] with another operator records nothing. *)
Theorem recorded_lines_are_condition_lines :
  ∀ (self : ConditionCoverageAnalyzer.t) (l : Z),
    l ∈ dom (ConditionCoverageAnalyzer.conditions (extracted self))
    ↔ l ∈ condition_node_lines (ConditionCoverageAnalyzer.tree self).
Proof.
  intros self l. unfold extracted, ConditionCoverageAnalyzer.find_conditions.
  cbn [snd ConditionCoverageAnalyzer.conditions].
  rewrite visit_dom. cbn [ConditionVisitor.init ConditionVisitor.conditions].
  rewrite dom_empty_L, (left_id_L ∅ (∪)). apply elem_of_list_to_set.
Qed.

(** X2. The class table holds exactly the names of the [ClassDef] nodes of
    the tree, nested ones too; two classes of one name share one entry. *)
Theorem class_table_names :
  ∀ self : ConditionCoverageAnalyzer.t,
    dom (ConditionCoverageAnalyzer.classes (extracted self))
    = list_to_set (class_entries (ConditionCoverageAnalyzer.tree self)).*1.
Proof.
  intros self.
  pose proof (visit_classes_dom (ConditionCoverageAnalyzer.tree self)
                ConditionVisitor.init) as Hdom.
  cbn [ConditionVisitor.init ConditionVisitor.classes] in Hdom.
  rewrite dom_empty_L, (left_id_L ∅ (∪)) in Hdom. rewrite <- Hdom.
  apply set_eq. intros c. rewrite !elem_of_dom. split.
  - intros [class_info Hc]. apply extracted_class_lookup in Hc as (a & Hc & _).
    by eauto.
  - intros [a Hc].
    destruct (visit_classes_valid (ConditionCoverageAnalyzer.tree self)
                ConditionVisitor.init classes_valid_init c a Hc)
      as (class_info & Hlook & _).
    exists class_info. apply extracted_class_lookup. by eauto.
Qed.

(** X3. Every entry of the class table bears its key as name and the line
    range of a [ClassDef] node of that name, and each entry of its method
    table is the name and line range of a [FunctionDef] node. *)
Theorem class_table_entries :
  ∀ (self : ConditionCoverageAnalyzer.t) (c : string) (class_info : ClassInfo.t),
    ConditionCoverageAnalyzer.classes (extracted self) !! c = Some class_info →
    ClassInfo.name class_info = c
    ∧ (c, (ClassInfo.start_line class_info, ClassInfo.end_line class_info))
      ∈ class_entries (ConditionCoverageAnalyzer.tree self)
    ∧ ∀ m range,
        ClassInfo.methods class_info !! m = Some range →
        (m, range) ∈ def_entries (ConditionCoverageAnalyzer.tree self).
Proof.
  intros self c class_info Hc.
  apply extracted_class_lookup in Hc as (a & Hc & Hlook).
  destruct (visit_classes_valid (ConditionCoverageAnalyzer.tree self)
              ConditionVisitor.init classes_valid_init c a Hc)
    as (class_info' & Hlook' & Hname).
  assert (class_info' = class_info) as -> by congruence.
  split; [done|]. split.
  - rewrite <- Hname.
    apply (visit_objects_within _ (ConditionCoverageAnalyzer.tree self)
             ConditionVisitor.init (nodes_class_entries _)) with a; [|done].
    intros a' class_info' Hnone. by destruct a'.
  - intros m range Hm.
    apply (visit_method_entries_within _ (ConditionCoverageAnalyzer.tree self)
             ConditionVisitor.init (nodes_def_entries _)) with a class_info;
      [|done..].
    intros a' class_info' m' range' Hnone. by destruct a'.
Qed.

(** X3 on [boolop_and_not_in_method]: the entry of [Foo]. *)
Lemma class_table_entries_witness :
  ClassInfo.name (ClassInfo.mk "Foo" 1 4 {["bar" := (2, 4)%Z]} 2 0) = "Foo"
  ∧ ("Foo", (1, 4)%Z) ∈ class_entries boolop_and_not_in_method
  ∧ ∀ m range,
      ({["bar" := (2, 4)%Z]} : gmap string (Z * Z)) !! m = Some range →
      (m, range) ∈ def_entries boolop_and_not_in_method.
Proof.
  assert (ConditionCoverageAnalyzer.classes
            (extracted (ConditionCoverageAnalyzer.of_tree "" boolop_and_not_in_method))
          !! "Foo"
          = Some (ClassInfo.mk "Foo" 1 4 {["bar" := (2, 4)%Z]} 2 0)) as Hfoo
    by (vm_compute; reflexivity).
  exact (class_table_entries
           (ConditionCoverageAnalyzer.of_tree "" boolop_and_not_in_method)
           "Foo" (ClassInfo.mk "Foo" 1 4 {["bar" := (2, 4)%Z]} 2 0) Hfoo).
Defined.

(** X4. A class statement at the top of the module with no class nested in
    it and no later class of its name: its entry in the class table has one
    method per [def] below it, nested ones too (the last of a name
    winning), and counts every condition node below it, two on one line
    twice. *)
Theorem top_level_class_entry :
  ∀ source_code (before after body : list AST) n l e,
    existsb has_ClassDef body = false →
    n ∉ (flat_map class_entries after).*1 →
    ConditionCoverageAnalyzer.classes
      (extracted
         (ConditionCoverageAnalyzer.of_tree source_code
            (Mod (before ++ ClassDef n l e body :: after))))
    !! n
    = Some (ClassInfo.mk n l (default l e)
              (fill id ∅ (flat_map def_entries body))
              (length (flat_map condition_node_lines body)) 0).
Proof.
  intros source_code before after body n l e Hbody Hafter.
  apply extracted_class_lookup.
  cbn [ConditionCoverageAnalyzer.of_tree ConditionCoverageAnalyzer.tree].
  unfold Mod. rewrite visit_Other. unfold ConditionVisitor.generic_visit.
  rewrite foldl_app. cbn [foldl].
  fold (ConditionVisitor.generic_visit before ConditionVisitor.init).
  set (v1 := ConditionVisitor.generic_visit before ConditionVisitor.init).
  set (v2 := ConditionVisitor.visit (ClassDef n l e body) v1).
  fold (ConditionVisitor.generic_visit after v2).
  rewrite <- (visit_Other after v2).
  assert (ConditionVisitor.heap v2 !! length (ConditionVisitor.heap v1)
          = Some (ClassInfo.mk n l (default l e)
                    (fill id ∅ (flat_map def_entries body))
                    (length (flat_map condition_node_lines body)) 0)) as Hobj.
  { unfold v2. by rewrite visit_ClassDef_object. }
  assert (ConditionVisitor.classes v2 !! n
          = Some (length (ConditionVisitor.heap v1))) as Hname.
  { unfold v2. rewrite visit_ClassDef.
    destruct (generic_visit_inside_class body
                (Forall_true _ body (λ t, visit_inside_class t)) Hbody
                (ConditionVisitor.enter_class n l (default l e) v1)
                (length (ConditionVisitor.heap v1)) eq_refl)
      as (_ & Hclasses & _).
    cbn [ConditionVisitor.set_current_class ConditionVisitor.classes].
    rewrite Hclasses.
    cbn [ConditionVisitor.enter_class ConditionVisitor.classes].
    apply lookup_insert_eq. }
  assert (ConditionVisitor.current_class v2 = None) as Hcur
    by apply visit_ClassDef_current_class.
  exists (length (ConditionVisitor.heap v1)). split.
  - apply visit_keeps_class; [|done].
    apply (nodes_not_class_named n (Other after)). done.
  - destruct (visit_frame v2 (Other after) v2 (frame_refl v2)) as (_ & _ & Hframe).
    rewrite Hframe; [done| |by rewrite Hcur].
    by apply lookup_lt_is_Some_1; eauto.
Qed.

(** X4 on [boolop_and_not_in_method]: the class [Foo] counts 2. *)
Lemma top_level_class_entry_witness :
  ConditionCoverageAnalyzer.classes
    (extracted (ConditionCoverageAnalyzer.of_tree "" boolop_and_not_in_method))
  !! "Foo"
  = Some (ClassInfo.mk "Foo" 1 4
            (fill id ∅
               (flat_map def_entries
                  [FunctionDef "bar" 2 (Some 4%Z)
                     [arguments [arg];
                      If (BoolOp 3 [Name; UnaryOp Not 3 [Name]]) [Pass]]]))
            2 0).
Proof.
  apply (top_level_class_entry "" [] []
           [FunctionDef "bar" 2 (Some 4%Z)
              [arguments [arg];
               If (BoolOp 3 [Name; UnaryOp Not 3 [Name]]) [Pass]]]
           "Foo" 1%Z (Some 4%Z)).
  - reflexivity.
  - simpl. apply not_elem_of_nil.
Defined.

(** ** The aggregator, further *)

Lemma count_ext {A : Type} (p q : A → bool) (l : list A) :
  (∀ x, x ∈ l → p x = q x) → count p l = count q l.
Proof.
  intros Hpq. apply Nat.le_antisymm; apply count_mono; intros x Hx.
  - by rewrite (Hpq x Hx).
  - by rewrite <- (Hpq x Hx).
Qed.

Lemma count_all {A : Type} (p : A → bool) (l : list A) :
  (∀ x, x ∈ l → p x = true) → count p l = length l.
Proof.
  induction l as [|x l IH]; intros Hp; simpl; [done|].
  rewrite (Hp x) by by left. rewrite IH; [done|].
  intros y Hy. apply Hp. by right.
Qed.

Lemma count_none {A : Type} (p : A → bool) (l : list A) :
  (∀ x, x ∈ l → p x = false) → count p l = 0.
Proof.
  induction l as [|x l IH]; intros Hp; simpl; [done|].
  rewrite (Hp x) by by left. rewrite IH; [done|].
  intros y Hy. apply Hp. by right.
Qed.

Lemma elem_of_condition_lines (self : ConditionCoverageAnalyzer.t) (l : Z) :
  l ∈ condition_lines self ↔ l ∈ dom (ConditionCoverageAnalyzer.conditions self).
Proof.
  unfold condition_lines. rewrite elem_of_dom, list_elem_of_fmap. split.
  - intros ([l' node] & -> & Hin). apply elem_of_map_to_list in Hin. by eauto.
  - intros [node Hnode]. exists (l, node). split; [done|].
    by apply elem_of_map_to_list.
Qed.

Lemma NoDup_condition_lines (self : ConditionCoverageAnalyzer.t) :
  NoDup (condition_lines self).
Proof. apply NoDup_fst_map_to_list. Qed.

(** A set of elements of a duplicate-free list has as many elements as the
    list has members of it. *)
Lemma size_count (X : gset Z) (keys : list Z) :
  NoDup keys → (∀ l, l ∈ X → l ∈ keys) →
  size X = count (λ l, bool_decide (l ∈ X)) keys.
Proof.
  intros Hnd. revert X. induction Hnd as [|k keys Hk Hnd IH]; intros X HX.
  - simpl. apply size_empty_iff. apply set_equiv. intros l.
    split; [|by intros ?%not_elem_of_empty].
    intros Hl. by apply HX, elem_of_nil in Hl.
  - simpl. destruct (bool_decide (k ∈ X)) eqn:HkX.
    + apply bool_decide_eq_true in HkX.
      rewrite (union_difference_singleton_L k X HkX) at 1.
      rewrite size_union, size_singleton.
      2:{ apply disjoint_singleton_l, not_elem_of_difference.
          right. by apply elem_of_singleton. }
      f_equal. rewrite (IH (X ∖ {[k]})).
      * apply count_ext. intros l Hl. apply bool_decide_ext.
        rewrite elem_of_difference, elem_of_singleton.
        split; [by intros [? _]|]. intros HlX. split; [done|]. by intros ->.
      * intros l [HlX Hne]%elem_of_difference.
        apply HX, elem_of_cons in HlX as [->|?]; [|done].
        by destruct Hne; apply elem_of_singleton.
    + apply bool_decide_eq_false in HkX. simpl. apply IH.
      intros l HlX. pose proof (HX l HlX) as [->|?]%elem_of_cons; done.
Qed.

Lemma percentage_full (n : nat) : (percentage n n == 100)%Q.
Proof.
  unfold percentage. destruct (decide (n = 0)) as [|Hne]; [done|].
  unfold Qdiv. rewrite Qmult_inv_r; [done|].
  intros Hz. apply (Qlt_irrefl 0). rewrite <- Hz at 2. by apply inject_nat_pos.
Qed.

Lemma percentage_none (total : nat) : total ≠ 0 → (percentage 0 total == 0)%Q.
Proof.
  intros Hne. unfold percentage. destruct (decide (total = 0)); [done|].
  unfold Qdiv. simpl. by rewrite !Qmult_0_l.
Qed.

(** X5. When every recorded line ran, the file and every method are fully
    covered: covered equals total and the percentage is 100. *)
Theorem all_recorded_lines_executed :
  ∀ (analyzer : ConditionCoverageAnalyzer.t) (lines : gset Z),
    (∀ l, l ∈ dom (ConditionCoverageAnalyzer.conditions (extracted analyzer)) →
          l ∈ lines) →
    ∃ r,
      ConditionCoveragePlugin.measure analyzer lines = Ok r
      ∧ ConditionCoveragePlugin.covered_conditions r
        = ConditionCoveragePlugin.total_conditions r
      ∧ (ConditionCoveragePlugin.condition_coverage r == 100)%Q
      ∧ ∀ c e m me,
          ConditionCoveragePlugin.classes r !! c = Some e →
          ClassCoverage.methods e !! m = Some me →
          MethodCoverage.covered_conditions me = MethodCoverage.total_conditions me
          ∧ (MethodCoverage.coverage_percentage me == 100)%Q.
Proof.
  intros analyzer lines Hall.
  destruct (measure_Ok analyzer lines) as (self' & -> & Hkeys & Hset).
  set (keys := condition_lines (extracted analyzer)) in *.
  assert (∀ l, l ∈ keys → l ∈ lines) as Hall'.
  { intros l Hl. by apply Hall, elem_of_condition_lines. }
  eexists. split; [reflexivity|]. entry_simpl.
  assert (file_covered lines keys
          = size (ConditionCoverageAnalyzer.conditions (extracted analyzer))) as ->.
  { rewrite <- length_condition_lines. apply count_all.
    intros l Hl. by apply bool_decide_eq_true, Hall'. }
  split; [done|]. split; [apply percentage_full|].
  intros c e m me Hc Hm.
  apply lookup_fmap_Some in Hc as (class_info & <- & _). entry_simpl.
  apply lookup_fmap_Some in Hm as (range & <- & _). entry_simpl.
  rewrite Hkeys.
  assert (count (λ l, ConditionCoverageAnalyzer.in_range range.1 range.2 l
                      && bool_decide
                           (l ∈ ConditionCoverageAnalyzer.covered_conditions self'))
                keys
          = count (ConditionCoverageAnalyzer.in_range range.1 range.2) keys) as ->.
  { apply count_ext. intros l Hl.
    rewrite (bool_decide_eq_true_2 (l ∈ _)); [apply andb_true_r|].
    apply Hset. right. split; [done|]. by apply Hall'. }
  split; [done|]. apply percentage_full.
Qed.

(** X5 on [boolop_and_not_in_method] with line 3 executed. *)
Lemma all_recorded_lines_executed_witness :
  ∃ r,
    ConditionCoveragePlugin.measure
      (ConditionCoverageAnalyzer.of_tree "" boolop_and_not_in_method) {[3%Z]}
    = Ok r
    ∧ ConditionCoveragePlugin.covered_conditions r
      = ConditionCoveragePlugin.total_conditions r
    ∧ (ConditionCoveragePlugin.condition_coverage r == 100)%Q
    ∧ ∀ c e m me,
        ConditionCoveragePlugin.classes r !! c = Some e →
        ClassCoverage.methods e !! m = Some me →
        MethodCoverage.covered_conditions me = MethodCoverage.total_conditions me
        ∧ (MethodCoverage.coverage_percentage me == 100)%Q.
Proof.
  apply (all_recorded_lines_executed
           (ConditionCoverageAnalyzer.of_tree "" boolop_and_not_in_method) {[3%Z]}).
  intros l Hl. rewrite dom_extracted_conditions in Hl.
  apply elem_of_list_to_set in Hl.
  apply elem_of_singleton. simpl in Hl.
  repeat (apply elem_of_cons in Hl as [->|Hl]; [reflexivity|]).
  by apply elem_of_nil in Hl.
Defined.

(** X6. When no recorded line ran, a fresh analyzer reports 0 covered
    conditions for the file, for every class and for every method, and a
    file percentage of 0 unless the file has no condition. *)
Theorem no_recorded_line_executed :
  ∀ source_code (t : AST) (lines : gset Z),
    (∀ l, l ∈ lines → l ∉ condition_node_lines t) →
    ∃ r,
      ConditionCoveragePlugin.measure
        (ConditionCoverageAnalyzer.of_tree source_code t) lines = Ok r
      ∧ ConditionCoveragePlugin.covered_conditions r = 0
      ∧ (ConditionCoveragePlugin.total_conditions r ≠ 0 →
         (ConditionCoveragePlugin.condition_coverage r == 0)%Q)
      ∧ ∀ c e,
          ConditionCoveragePlugin.classes r !! c = Some e →
          ClassCoverage.covered_conditions e = 0
          ∧ ∀ m me,
              ClassCoverage.methods e !! m = Some me →
              MethodCoverage.covered_conditions me = 0.
Proof.
  intros source_code t lines Hnone.
  set (analyzer := ConditionCoverageAnalyzer.of_tree source_code t).
  destruct (measure_Ok analyzer lines) as (self' & -> & Hkeys & Hset).
  set (keys := condition_lines (extracted analyzer)) in *.
  assert (∀ l, l ∈ keys → l ∉ lines) as Hnone'.
  { intros l Hl Hlines. apply (Hnone l Hlines).
    apply elem_of_condition_lines in Hl.
    rewrite dom_extracted_conditions in Hl. by apply elem_of_list_to_set in Hl. }
  eexists. split; [reflexivity|]. entry_simpl.
  assert (file_covered lines keys = 0) as ->.
  { apply count_none. intros l Hl. by apply bool_decide_eq_false, Hnone'. }
  split; [done|]. split; [apply percentage_none|].
  intros c e Hc. apply lookup_fmap_Some in Hc as (class_info & <- & _).
  entry_simpl. split.
  - apply count_none. intros l Hl.
    by rewrite (bool_decide_eq_false_2 _ (Hnone' l Hl)).
  - intros m me Hm. apply lookup_fmap_Some in Hm as (range & <- & _).
    entry_simpl. rewrite Hkeys. apply count_none. intros l Hl.
    rewrite bool_decide_eq_false_2; [apply andb_false_r|].
    intros [Hin|[_ Hin]]%Hset; [|by apply (Hnone' l Hl)].
    by apply not_elem_of_empty in Hin.
Qed.

(** X6 on [boolop_and_not_in_method] with line 4 executed only. *)
Lemma no_recorded_line_executed_witness :
  ∃ r,
    ConditionCoveragePlugin.measure
      (ConditionCoverageAnalyzer.of_tree "" boolop_and_not_in_method) {[4%Z]}
    = Ok r
    ∧ ConditionCoveragePlugin.covered_conditions r = 0
    ∧ (ConditionCoveragePlugin.total_conditions r ≠ 0 →
       (ConditionCoveragePlugin.condition_coverage r == 0)%Q)
    ∧ ∀ c e,
        ConditionCoveragePlugin.classes r !! c = Some e →
        ClassCoverage.covered_conditions e = 0
        ∧ ∀ m me,
            ClassCoverage.methods e !! m = Some me →
            MethodCoverage.covered_conditions me = 0.
Proof.
  apply (no_recorded_line_executed "" boolop_and_not_in_method {[4%Z]}).
  intros l ->%elem_of_singleton. simpl.
  intros Hl. repeat (apply elem_of_cons in Hl as [Hl|Hl]; [discriminate|]).
  by apply elem_of_nil in Hl.
Defined.

(** X7. Only the recorded lines matter: two executed sets that agree on
    the lines holding a condition give the same entry for the file. *)
Theorem only_recorded_lines_matter :
  ∀ (analyzer : ConditionCoverageAnalyzer.t) (E E' : gset Z),
    (∀ l, l ∈ dom (ConditionCoverageAnalyzer.conditions (extracted analyzer)) →
          (l ∈ E ↔ l ∈ E')) →
    ConditionCoveragePlugin.measure analyzer E
    = ConditionCoveragePlugin.measure analyzer E'.
Proof.
  intros analyzer E E' Hagree.
  destruct (measure_Ok analyzer E) as (self1 & -> & Hkeys1 & Hset1).
  destruct (measure_Ok analyzer E') as (self2 & -> & Hkeys2 & Hset2).
  set (keys := condition_lines (extracted analyzer)) in *.
  assert (∀ l, l ∈ keys → bool_decide (l ∈ E) = bool_decide (l ∈ E')) as Hagree'.
  { intros l Hl. apply bool_decide_ext, Hagree. by apply elem_of_condition_lines. }
  assert (file_covered E keys = file_covered E' keys) as ->.
  { by apply count_ext. }
  do 2 f_equal. apply map_fmap_ext. intros c class_info _.
  unfold measured_class, class_report. entry_simpl.
  assert (class_covered E class_info keys = class_covered E' class_info keys) as ->.
  { apply count_ext. intros l Hl. by rewrite (Hagree' l Hl). }
  f_equal. apply map_fmap_ext. intros m range _.
  unfold method_report. rewrite Hkeys1, Hkeys2.
  assert (count (λ l, ConditionCoverageAnalyzer.in_range range.1 range.2 l
                      && bool_decide
                           (l ∈ ConditionCoverageAnalyzer.covered_conditions self1))
                keys
          = count (λ l, ConditionCoverageAnalyzer.in_range range.1 range.2 l
                        && bool_decide
                             (l ∈ ConditionCoverageAnalyzer.covered_conditions self2))
                  keys) as ->; [|done].
  apply count_ext. intros l Hl. f_equal. apply bool_decide_ext.
  rewrite Hset1, Hset2.
  assert (l ∈ E ↔ l ∈ E') as Hl'.
  { apply Hagree. by apply elem_of_condition_lines. }
  tauto.
Qed.

(** X7 on [boolop_and_not_in_method]: line 4 holds no condition. *)
Lemma only_recorded_lines_matter_witness :
  ConditionCoveragePlugin.measure
    (ConditionCoverageAnalyzer.of_tree "" boolop_and_not_in_method) {[3%Z]}
  = ConditionCoveragePlugin.measure
      (ConditionCoverageAnalyzer.of_tree "" boolop_and_not_in_method)
      ({[3%Z]} ∪ {[4%Z]}).
Proof.
  apply (only_recorded_lines_matter
           (ConditionCoverageAnalyzer.of_tree "" boolop_and_not_in_method)
           {[3%Z]} ({[3%Z]} ∪ {[4%Z]})).
  intros l Hl. rewrite dom_extracted_conditions in Hl.
  apply elem_of_list_to_set in Hl. simpl in Hl.
  assert (l = 3%Z) as ->.
  { repeat (apply elem_of_cons in Hl as [->|Hl]; [reflexivity|]).
    by apply elem_of_nil in Hl. }
  split; intros _; [apply elem_of_union_l|]; by apply elem_of_singleton.
Defined.

(** X8. For an analyzer as [__init__] builds it, no part reports more than
    the file: a class's covered count is at most the file's, and a method's
    total and covered counts are at most the file's total and covered
    counts. *)
Theorem parts_at_most_the_file :
  ∀ source_code (t : AST) (lines : gset Z),
    ∃ r,
      ConditionCoveragePlugin.measure
        (ConditionCoverageAnalyzer.of_tree source_code t) lines = Ok r
      ∧ ∀ c e,
          ConditionCoveragePlugin.classes r !! c = Some e →
          ClassCoverage.covered_conditions e
          ≤ ConditionCoveragePlugin.covered_conditions r
          ∧ ∀ m me,
              ClassCoverage.methods e !! m = Some me →
              MethodCoverage.total_conditions me
              ≤ ConditionCoveragePlugin.total_conditions r
              ∧ MethodCoverage.covered_conditions me
                ≤ ConditionCoveragePlugin.covered_conditions r.
Proof.
  intros source_code t lines.
  set (analyzer := ConditionCoverageAnalyzer.of_tree source_code t).
  destruct (measure_Ok analyzer lines) as (self' & -> & Hkeys & Hset).
  set (keys := condition_lines (extracted analyzer)) in *.
  eexists. split; [reflexivity|]. entry_simpl.
  intros c e Hc. apply lookup_fmap_Some in Hc as (class_info & <- & _).
  entry_simpl. split.
  - apply count_mono. intros l _ Hl. by apply andb_true_iff in Hl as [? _].
  - intros m me Hm. apply lookup_fmap_Some in Hm as (range & <- & _).
    entry_simpl. rewrite Hkeys. split.
    + rewrite <- length_condition_lines. apply count_le_length.
    + apply count_mono. intros l Hl Hp.
      apply andb_true_iff in Hp as [_ Hp]. apply bool_decide_eq_true in Hp.
      apply Hset in Hp as [Hp|[_ Hp]]; [by apply not_elem_of_empty in Hp|].
      by apply bool_decide_eq_true.
Qed.

(** X9. [analyze_file] on an analyzer as [__init__] builds it leaves in
    [covered_conditions] exactly the condition lines of the tree that are in
    [executed_lines] (none when the key is absent), and the two counts it
    returns are the sizes of [conditions] and of [covered_conditions]. *)
Theorem covered_set_after_analysis :
  ∀ source_code (t : AST) (coverage_data : gmap string (gset Z)),
    (∀ l,
       l ∈ ConditionCoverageAnalyzer.covered_conditions
             (ConditionCoverageAnalyzer.analyze_file
                (ConditionCoverageAnalyzer.of_tree source_code t) coverage_data).2
       ↔ l ∈ condition_node_lines t ∧ l ∈ executed coverage_data)
    ∧ (ConditionCoverageAnalyzer.analyze_file
         (ConditionCoverageAnalyzer.of_tree source_code t) coverage_data).1.1
      = size (ConditionCoverageAnalyzer.conditions
                (ConditionCoverageAnalyzer.analyze_file
                   (ConditionCoverageAnalyzer.of_tree source_code t)
                   coverage_data).2)
    ∧ (ConditionCoverageAnalyzer.analyze_file
         (ConditionCoverageAnalyzer.of_tree source_code t) coverage_data).1.2
      = size (ConditionCoverageAnalyzer.covered_conditions
                (ConditionCoverageAnalyzer.analyze_file
                   (ConditionCoverageAnalyzer.of_tree source_code t)
                   coverage_data).2).
Proof.
  intros source_code t coverage_data.
  set (analyzer := ConditionCoverageAnalyzer.of_tree source_code t).
  pose proof (analyze_file_eq analyzer coverage_data) as Hrun. cbv zeta in Hrun.
  destruct Hrun as (covered_set & -> & Hset).
  cbn [fst snd ConditionCoverageAnalyzer.covered_conditions
       ConditionCoverageAnalyzer.conditions].
  set (keys := condition_lines (extracted analyzer)) in *.
  assert (∀ l, l ∈ covered_set ↔ l ∈ keys ∧ l ∈ executed coverage_data) as Hset'.
  { intros l. rewrite Hset. split; [|by right].
    intros [Hl|Hl]; [by apply not_elem_of_empty in Hl|done]. }
  split; [|split; [done|]].
  - intros l. rewrite Hset'. unfold keys.
    by rewrite elem_of_condition_lines, dom_extracted_conditions,
      elem_of_list_to_set.
  - rewrite (size_count covered_set keys).
    + apply count_ext. intros l Hl. apply bool_decide_ext.
      rewrite Hset'. tauto.
    + apply NoDup_condition_lines.
    + by intros l [? _]%Hset'.
Qed.

(** X10. [get_class_coverage] never raises: it reports one entry per class
    of the table, with the class's two counters copied, a percentage of 100
    for a class whose counter is 0, and one entry per method of the class. *)
Theorem class_coverage_mirrors_table :
  ∀ self : ConditionCoverageAnalyzer.t,
    ∃ report,
      ConditionCoverageAnalyzer.get_class_coverage self = Ok report
      ∧ dom report = dom (ConditionCoverageAnalyzer.classes self)
      ∧ ∀ c e,
          report !! c = Some e →
          ∃ class_info,
            ConditionCoverageAnalyzer.classes self !! c = Some class_info
            ∧ ClassCoverage.total_conditions e = ClassInfo.conditions class_info
            ∧ ClassCoverage.covered_conditions e
              = ClassInfo.covered_conditions class_info
            ∧ (ClassInfo.conditions class_info = 0 →
               ClassCoverage.coverage_percentage e = 100%Q)
            ∧ dom (ClassCoverage.methods e) = dom (ClassInfo.methods class_info).
Proof.
  intros self. rewrite get_class_coverage_Ok. eexists. split; [reflexivity|].
  split; [apply dom_fmap_L|].
  intros c e Hc. apply lookup_fmap_Some in Hc as (class_info & <- & Hc).
  exists class_info. split; [done|]. unfold class_report. entry_simpl.
  split; [done|]. split; [done|]. split; [|apply dom_fmap_L].
  intros ->. apply percentage_zero_total.
Qed.

(** ** The plugin, further *)

(** ** Python strings *)

Lemma prefix_append (p s : string) :
  String.prefix p s = true ↔ ∃ r, s = p +:+ r.
Proof.
  revert s. induction p as [|a p IH]; intros s; simpl.
  - destruct s; (split; [by eauto|done]).
  - destruct s as [|b s]; simpl; [split; [done|by intros [? ?]]|].
    destruct (ascii_dec a b) as [->|Hne].
    + split.
      * intros [r ->]%IH. by exists r.
      * intros [r [= ->]]. apply IH. by exists r.
    + split; [done|]. intros [r [= ? _]]. done.
Qed.

Lemma endswith_append (suffix s : string) :
  endswith suffix s = true ↔ ∃ stem, s = stem +:+ suffix.
Proof.
  split.
  - induction s as [|c s IH]; simpl.
    + rewrite orb_false_r. intros ->%String.eqb_eq. by exists EmptyString.
    + intros [->%String.eqb_eq|Hs]%orb_true_iff; [by exists EmptyString|].
      destruct (IH Hs) as [stem ->]. by exists (String c stem).
  - intros [stem ->]. induction stem as [|c stem IH]; simpl.
    + change ("" +:+ suffix) with suffix.
      destruct suffix as [|c suffix]; [done|].
      cbn [endswith]. by rewrite String.eqb_refl.
    + change (String c stem +:+ suffix) with (String c (stem +:+ suffix)).
      cbn [endswith]. by rewrite IH, orb_true_r.
Qed.

Lemma split_up_to (sep : ascii) (s : string) :
  ∃ pieces, split sep s = up_to sep s :: pieces.
Proof.
  induction s as [|c s [pieces IH]]; simpl; [by eauto|].
  destruct (Ascii.eqb c sep); [by eauto|]. rewrite IH. by eauto.
Qed.

Lemma split_cov (p : string) :
  getitem (split "=" ("--cov=" +:+ p)) 1 = Ok (up_to "=" p).
Proof.
  destruct (split_up_to "=" p) as [pieces Hp].
  change ("--cov=" +:+ p)
    with (String "-" (String "-" (String "c" (String "o" (String "v"
            (String "=" p)))))).
  unfold getitem. simpl. by rewrite Hp.
Qed.

(** ** [pytest_sessionstart] *)

Lemma sessionstart_loop_skip (before args : list string) (package_name : option string) :
  (∀ a, a ∈ before → startswith "--cov=" a = false) →
  ConditionCoveragePlugin.sessionstart_loop (before ++ args) package_name
  = ConditionCoveragePlugin.sessionstart_loop args package_name.
Proof.
  induction before as [|b before IH]; intros Hb; [done|].
  cbn [app ConditionCoveragePlugin.sessionstart_loop].
  rewrite (Hb b) by by left. apply IH. intros a Ha. apply Hb. by right.
Qed.

(** X11. [pytest_sessionstart] never raises: an argument that starts with
    [--cov=] has a second piece. Without such an argument [package_name]
    stays as it was. *)
Theorem sessionstart_never_raises :
  ∀ (args : list string) (package_name : option string),
    ∃ r,
      ConditionCoveragePlugin.pytest_sessionstart args package_name = Ok r
      ∧ ((∀ a, a ∈ args → startswith "--cov=" a = false) → r = package_name).
Proof.
  intros args package_name.
  assert (∃ r, ConditionCoveragePlugin.sessionstart_loop args package_name = Ok r
               ∧ ((∀ a, a ∈ args → startswith "--cov=" a = false)
                  → r = package_name)) as Hloop.
  { induction args as [|arg args IH]; simpl; [by eauto|].
    destruct (startswith "--cov=" arg) eqn:Harg.
    - apply prefix_append in Harg as [p ->]. rewrite split_cov. simpl.
      eexists. split; [done|]. intros Hno.
      assert (startswith "--cov=" ("--cov=" +:+ p) = true) as Hyes.
      { apply prefix_append. by eauto. }
      rewrite (Hno ("--cov=" +:+ p)) in Hyes by by left. done.
    - destruct IH as (r & -> & Hr). exists r. split; [done|].
      intros Hno. apply Hr. intros a Ha. apply Hno. by right. }
  by destruct args.
Qed.

(** X12. The first argument that starts with [--cov=] decides: the package
    name becomes its text after [--cov=], cut at the next [=] if there is
    one; later arguments are not read. *)
Theorem sessionstart_takes_first_cov :
  ∀ (before after : list string) (p : string) (package_name : option string),
    (∀ a, a ∈ before → startswith "--cov=" a = false) →
    ConditionCoveragePlugin.pytest_sessionstart
      (before ++ ("--cov=" +:+ p) :: after) package_name
    = Ok (Some (up_to "=" p)).
Proof.
  intros before after p package_name Hb.
  assert (ConditionCoveragePlugin.pytest_sessionstart
            (before ++ ("--cov=" +:+ p) :: after) package_name
          = ConditionCoveragePlugin.sessionstart_loop
              (before ++ ("--cov=" +:+ p) :: after) package_name) as ->.
  { by destruct before. }
  rewrite sessionstart_loop_skip by done.
  cbn [ConditionCoveragePlugin.sessionstart_loop].
  assert (startswith "--cov=" ("--cov=" +:+ p) = true) as ->.
  { apply prefix_append. by eauto. }
  by rewrite split_cov.
Qed.

(** X12 on [pytest tests --cov=pkg=x --cov=other]. *)
Lemma sessionstart_takes_first_cov_witness :
  ConditionCoveragePlugin.pytest_sessionstart
    (["tests"] ++ ("--cov=" +:+ "pkg=x") :: ["--cov=other"]) None
  = Ok (Some (up_to "=" "pkg=x")).
Proof.
  apply (sessionstart_takes_first_cov ["tests"] ["--cov=other"] "pkg=x" None).
  intros a Ha. apply list_elem_of_singleton in Ha as ->. reflexivity.
Defined.

(** ** [_find_package_files] *)

Lemma collect_files_eq join abspath root (python_files files : list string) :
  ConditionCoveragePlugin.collect_files join abspath root python_files files
  = python_files
    ++ ((λ file, abspath (join root file)) <$> filter (λ file, endswith ".py" file = true) files).
Proof.
  unfold ConditionCoveragePlugin.collect_files.
  revert python_files. induction files as [|f files IH]; intros python_files; simpl.
  - by rewrite (right_id_L [] (++)).
  - rewrite IH. rewrite filter_cons.
    destruct (endswith ".py" f) eqn:Hf.
    + rewrite decide_True by done. by rewrite <- (assoc_L (++)).
    + rewrite decide_False by done. done.
Qed.

Lemma find_package_files_eq os_walk join abspath (package_name : option string) :
  ConditionCoveragePlugin._find_package_files os_walk join abspath package_name
  = os_walk (ConditionCoveragePlugin.base_path package_name)
    ≫= (λ item, (λ file, abspath (join item.1 file))
                  <$> filter (λ file, endswith ".py" file = true) item.2).
Proof.
  unfold ConditionCoveragePlugin._find_package_files.
  generalize (os_walk (ConditionCoveragePlugin.base_path package_name)).
  intros walk.
  assert (∀ acc,
            foldl (λ python_files item,
                     ConditionCoveragePlugin.collect_files join abspath item.1
                       python_files item.2) acc walk
            = acc ++ (walk ≫= (λ item, (λ file, abspath (join item.1 file))
                  <$> filter (λ file, endswith ".py" file = true) item.2))) as Hloop.
  { induction walk as [|item walk IH]; intros acc; simpl.
    - by rewrite (right_id_L [] (++)).
    - rewrite IH, collect_files_eq. by rewrite <- (assoc_L (++)). }
  apply (Hloop []).
Qed.

(** X13. [_find_package_files] returns the absolute path of [root/file] for
    exactly the files that [os.walk] lists under the base with a name that
    ends in [.py]; the base is the package name, or [.] when that is [None]
    or empty. *)
Theorem package_files_found :
  ∀ os_walk join abspath (package_name : option string) (p : string),
    p ∈ ConditionCoveragePlugin._find_package_files os_walk join abspath package_name
    ↔ ∃ root files stem,
        (root, files)
          ∈ os_walk (match package_name with
                     | Some (String c name) => String c name
                     | _ => "."
                     end)
        ∧ (stem +:+ ".py") ∈ files
        ∧ p = abspath (join root (stem +:+ ".py")).
Proof.
  intros os_walk join abspath package_name p.
  rewrite find_package_files_eq.
  assert (ConditionCoveragePlugin.base_path package_name
          = match package_name with
            | Some (String c name) => String c name
            | _ => "."
            end) as -> by by destruct package_name as [[]|].
  rewrite list_elem_of_bind. split.
  - intros ([root files] & Hp & Hitem). simpl in Hp.
    apply list_elem_of_fmap in Hp as (file & -> & Hfile).
    apply list_elem_of_filter in Hfile as [Hpy Hfile].
    apply endswith_append in Hpy as [stem ->]. by eauto 10.
  - intros (root & files & stem & Hitem & Hfile & ->).
    exists (root, files). split; [|done]. simpl.
    apply list_elem_of_fmap. eexists. split; [done|].
    apply list_elem_of_filter. split; [|done].
    apply endswith_append. by eauto.
Qed.

(** ** The loop over the files, further *)

Lemma process_file_Ok coverage_lines read_file ast_parse
    (file_path abs_path : string) (r : ConditionCoveragePlugin.file_result) :
  ConditionCoveragePlugin.process_file coverage_lines read_file ast_parse
    file_path abs_path = Ok r
  ↔ ∃ source t,
      read_file file_path = Ok source
      ∧ ast_parse source = Ok t
      ∧ ConditionCoveragePlugin.measure
          (ConditionCoverageAnalyzer.of_tree source t)
          (ConditionCoveragePlugin.lines_or_empty (coverage_lines abs_path))
        = Ok r.
Proof.
  unfold ConditionCoveragePlugin.process_file, ConditionCoverageAnalyzer.init.
  destruct (read_file file_path) as [source|e];
    cbn -[ConditionCoveragePlugin.measure].
  - destruct (ast_parse source) as [t|e] eqn:Hparse;
      cbn -[ConditionCoveragePlugin.measure].
    + split; [by eauto|]. intros (source' & t' & [= <-] & Ht' & Hr).
      rewrite Hparse in Ht'. by injection Ht' as <-.
    + split; [done|]. intros (source' & t' & [= <-] & Ht' & _).
      by rewrite Hparse in Ht'.
  - split; [done|]. by intros (? & ? & ? & _).
Qed.

Lemma measure_covered_le (analyzer : ConditionCoverageAnalyzer.t) (lines : gset Z)
    (r : ConditionCoveragePlugin.file_result) :
  ConditionCoveragePlugin.measure analyzer lines = Ok r →
  ConditionCoveragePlugin.covered_conditions r
  ≤ ConditionCoveragePlugin.total_conditions r
  ∧ (0 <= ConditionCoveragePlugin.condition_coverage r)%Q
  ∧ (ConditionCoveragePlugin.condition_coverage r <= 100)%Q.
Proof.
  destruct (measure_Ok analyzer lines) as (self' & -> & _ & _).
  intros [= <-]. entry_simpl.
  assert (file_covered lines (condition_lines (extracted analyzer))
          ≤ size (ConditionCoverageAnalyzer.conditions (extracted analyzer))) as Hle.
  { rewrite <- length_condition_lines. apply file_covered_le. }
  split; [done|]. split; [apply percentage_nonneg|by apply percentage_le_100].
Qed.

Lemma sum_list_fmap_le {A : Type} (f g : A → nat) (l : list A) :
  (∀ x, x ∈ l → f x ≤ g x) → sum_list (f <$> l) ≤ sum_list (g <$> l).
Proof.
  induction l as [|x l IH]; intros Hfg; simpl; [done|].
  apply Nat.add_le_mono; [apply Hfg; by left|].
  apply IH. intros y Hy. apply Hfg. by right.
Qed.

Lemma file_result_eta (data : ConditionCoveragePlugin.file_result) :
  ConditionCoveragePlugin.mk_file_result
    (ConditionCoveragePlugin.condition_coverage data)
    (ConditionCoveragePlugin.total_conditions data)
    (ConditionCoveragePlugin.covered_conditions data)
    (ConditionCoveragePlugin.classes data)
  = data.
Proof. by destruct data. Qed.

Lemma report_loop_files relpath
    (items : list (string * ConditionCoveragePlugin.file_result))
    (acc : nat * nat * gmap string ConditionCoveragePlugin.file_result)
    (k : string) (v : ConditionCoveragePlugin.file_result) :
  (foldl (ConditionCoveragePlugin.report_step relpath) acc items).2 !! k = Some v →
  acc.2 !! k = Some v ∨ ∃ g, (g, v) ∈ items ∧ relpath g = k.
Proof.
  revert acc. induction items as [|[g data] items IH]; intros acc; simpl; [by left|].
  intros [Hacc|(g' & Hin & Hk)]%IH.
  - destruct acc as [[total covered] files]. simpl in Hacc.
    rewrite file_result_eta in Hacc.
    destruct (decide (relpath g = k)) as [<-|Hne].
    + rewrite lookup_insert_eq in Hacc. injection Hacc as ->.
      right. exists g. split; [by left|done].
    + rewrite lookup_insert_ne in Hacc by done. by left.
  - right. exists g'. split; [by right|done].
Qed.

Lemma report_loop_dom relpath
    (items : list (string * ConditionCoveragePlugin.file_result))
    (acc : nat * nat * gmap string ConditionCoveragePlugin.file_result)
    (k : string) :
  k ∈ dom (foldl (ConditionCoveragePlugin.report_step relpath) acc items).2
  ↔ k ∈ dom acc.2 ∨ ∃ g, g ∈ items.*1 ∧ relpath g = k.
Proof.
  revert acc. induction items as [|[g data] items IH]; intros acc; simpl.
  - split; [by left|]. intros [?|(g & Hg & _)]; [done|].
    by apply elem_of_nil in Hg.
  - rewrite IH. destruct acc as [[total covered] files]. simpl.
    rewrite dom_insert_L, elem_of_union, elem_of_singleton. split.
    + intros [[->|?]|(g' & Hg' & Hk)]; [|by left|].
      * right. exists g. split; [by left|done].
      * right. exists g'. split; [by right|done].
    + intros [?|(g' & Hg' & Hk)]; [by left; right|].
      apply elem_of_cons in Hg' as [->|Hg']; [by left; left|].
      right. by eauto.
Qed.

Lemma grand_covered_le (results : gmap string ConditionCoveragePlugin.file_result) :
  (∀ g r, results !! g = Some r →
          ConditionCoveragePlugin.covered_conditions r
          ≤ ConditionCoveragePlugin.total_conditions r) →
  grand_covered results ≤ grand_total results.
Proof.
  intros Hle. unfold grand_covered, grand_total.
  apply sum_list_fmap_le. intros r Hr.
  apply list_elem_of_fmap in Hr as ([g r'] & -> & Hr).
  apply elem_of_map_to_list in Hr. by apply (Hle g).
Qed.

(** The [report_data] of [_generate_report] in closed form: it always comes
    out, and what is in it. *)
Lemma generate_report_Ok (relpath : string → string)
    (results : gmap string ConditionCoveragePlugin.file_result) :
  ∃ files,
    ConditionCoveragePlugin._generate_report relpath results
    = Ok (ConditionCoveragePlugin.mk_report_data files
            (if decide (grand_total results = 0) then 0%Q
             else percentage (grand_covered results) (grand_total results)))
    ∧ (∀ g, g ∈ dom results → relpath g ∈ dom files)
    ∧ (∀ k r, files !! k = Some r → ∃ g, results !! g = Some r ∧ relpath g = k).
Proof.
  pose proof (report_loop_files relpath (map_to_list results) (0, 0, ∅)) as Hfiles.
  pose proof (report_loop_dom relpath (map_to_list results) (0, 0, ∅)) as Hdom.
  pose proof (report_loop_sums relpath (map_to_list results) 0 0 ∅) as Hsums.
  cbv zeta in Hsums. unfold ConditionCoveragePlugin._generate_report.
  destruct (foldl (ConditionCoveragePlugin.report_step relpath) (0, 0, ∅)
              (map_to_list results)) as [[total covered] files].
  simpl in Hsums, Hfiles, Hdom. destruct Hsums as [-> ->].
  fold (grand_total results). fold (grand_covered results).
  assert ((if decide (0 < grand_total results)
           then q ← truediv (grand_covered results) (grand_total results);
                Ok (q * 100)%Q
           else Ok 0%Q)
          = Ok (if decide (grand_total results = 0) then 0%Q
                else percentage (grand_covered results) (grand_total results)))
    as ->.
  { unfold percentage.
    destruct (decide (0 < grand_total results)), (decide (grand_total results = 0));
      try lia; [|done].
    by rewrite truediv_Ok. }
  exists files. split; [reflexivity|]. split.
  - intros g [r Hg]%elem_of_dom. apply Hdom. right. exists g. split; [|done].
    apply list_elem_of_fmap. exists (g, r). split; [done|].
    by apply elem_of_map_to_list.
  - intros k r [Hk|(g & Hg & Hk)]%Hfiles; [by rewrite lookup_empty in Hk|].
    exists g. split; [|done]. by apply elem_of_map_to_list.
Qed.

(** X14. [_generate_report] raises what [os.makedirs], [json.dump] or the
    write of the HTML report raises, in that order, and nothing else: the
    [report_data] it builds in between always comes out, the division being
    guarded.  Its top-level figure is the ratio of the summed covered counts
    to the summed totals, times 100, or 0 when no file has a condition; it
    is never negative and, when no entry has more covered than total, at
    most 100.  The [files] table holds, under the relative path of every
    file of the results, an entry of a file with that relative path, and
    nothing else. *)
Theorem report_of_results :
  ∀ (join : string → string → string) (relpath : string → string)
    (os_makedirs : string → result unit)
    (json_dump write_html : string → ConditionCoveragePlugin.report_data → result unit)
    (results : gmap string ConditionCoveragePlugin.file_result),
    ∃ report,
      ConditionCoveragePlugin._generate_report_io
        join relpath os_makedirs json_dump write_html results
      = (_ ← os_makedirs "htmlcov";
         _ ← json_dump (join "htmlcov" "condition_coverage.json") report;
         _ ← write_html (join "htmlcov" "condition_coverage.html") report;
         Ok ())
      ∧ ConditionCoveragePlugin.total_condition_coverage report
        = (if decide (grand_total results = 0) then 0%Q
           else (inject_Z (Z.of_nat (grand_covered results))
                 / inject_Z (Z.of_nat (grand_total results)) * 100)%Q)
      ∧ (0 <= ConditionCoveragePlugin.total_condition_coverage report)%Q
      ∧ ((∀ g r, results !! g = Some r →
                 ConditionCoveragePlugin.covered_conditions r
                 ≤ ConditionCoveragePlugin.total_conditions r) →
         (ConditionCoveragePlugin.total_condition_coverage report <= 100)%Q)
      ∧ (∀ k, k ∈ dom (ConditionCoveragePlugin.files report)
              ↔ ∃ g, g ∈ dom results ∧ relpath g = k)
      ∧ (∀ k r, ConditionCoveragePlugin.files report !! k = Some r →
                ∃ g, results !! g = Some r ∧ relpath g = k).
Proof.
  intros join relpath os_makedirs json_dump write_html results.
  unfold ConditionCoveragePlugin._generate_report_io.
  destruct (generate_report_Ok relpath results) as (files & -> & Hdom & Hfiles).
  eexists. split; [reflexivity|].
  cbn [ConditionCoveragePlugin.total_condition_coverage
       ConditionCoveragePlugin.files].
  split; [|split; [|split; [|split; [|exact Hfiles]]]].
  - unfold percentage. by destruct (decide (grand_total results = 0)).
  - destruct (decide (grand_total results = 0)); [done|apply percentage_nonneg].
  - intros Hle. destruct (decide (grand_total results = 0)); [done|].
    by apply percentage_le_100, grand_covered_le.
  - intros k. split.
    + intros [r (g & Hg & Hk)%Hfiles]%elem_of_dom.
      exists g. split; [|done]. by apply elem_of_dom.
    + intros (g & Hg & <-). by apply Hdom.
Qed.

Section files_loop.
Variable abspath : string → string.
Variable measured_files : gset string.
Variable coverage_lines : string → option (list Z).
Variable read_file : string → result string.
Variable ast_parse : string → result AST.

Local Abbreviation _calculate_condition_coverage :=
  (ConditionCoveragePlugin._calculate_condition_coverage
     abspath measured_files coverage_lines read_file ast_parse).
Local Abbreviation stored :=
  (stored abspath measured_files coverage_lines read_file ast_parse).
Local Abbreviation logged :=
  (logged abspath measured_files coverage_lines read_file ast_parse).

Lemma stored_Some (g : string) (r : ConditionCoveragePlugin.file_result) :
  stored g = Some r
  ↔ abspath g ∈ measured_files
    ∧ ∃ source t,
        read_file g = Ok source
        ∧ ast_parse source = Ok t
        ∧ ConditionCoveragePlugin.measure
            (ConditionCoverageAnalyzer.of_tree source t)
            (ConditionCoveragePlugin.lines_or_empty (coverage_lines (abspath g)))
          = Ok r.
Proof.
  unfold stored. rewrite <- process_file_Ok.
  destruct (decide (abspath g ∈ measured_files)) as [Hm|Hm].
  - rewrite bool_decide_eq_false_2 by by intros [].
    destruct (ConditionCoveragePlugin.process_file _ _ _ _ _).
    + split; [by intros [= ->]|]. by intros [_ [= ->]].
    + split; [done|]. by intros [_ ?].
  - rewrite bool_decide_eq_true_2 by done. split; [done|]. by intros [? _].
Qed.

(** X15. After the loop over the files, a file has an entry exactly when it
    is in the list, coverage has data for its absolute path, it can be read
    and its text parses; the entry is the measurement of its tree against
    the lines coverage has for it. *)
Theorem results_of_the_loop :
  ∀ (files_to_analyze : list string) (g : string)
    (r : ConditionCoveragePlugin.file_result),
    (_calculate_condition_coverage files_to_analyze (∅, [])).1 !! g = Some r
    ↔ g ∈ files_to_analyze
      ∧ abspath g ∈ measured_files
      ∧ ∃ source t,
          read_file g = Ok source
          ∧ ast_parse source = Ok t
          ∧ ConditionCoveragePlugin.measure
              (ConditionCoverageAnalyzer.of_tree source t)
              (ConditionCoveragePlugin.lines_or_empty
                 (coverage_lines (abspath g)))
            = Ok r.
Proof.
  intros files g r. rewrite calculate_results. cbn [fst].
  rewrite <- stored_Some.
  destruct (decide (g ∈ files)) as [Hg|Hg].
  - rewrite (bool_decide_eq_true_2 _ Hg).
    destruct (stored g) as [r'|].
    + split; [by intros [= ->]|]. by intros [_ [= ->]].
    + rewrite lookup_empty. split; [done|]. by intros [_ ?].
  - rewrite (bool_decide_eq_false_2 _ Hg), lookup_empty.
    split; [done|]. by intros [? _].
Qed.

(** X16. When coverage has data for none of the files, none is read: the
    results stay empty and the log is one warning per file, in order. *)
Theorem no_coverage_data_only_warns :
  ∀ files_to_analyze : list string,
    (∀ f, f ∈ files_to_analyze → abspath f ∉ measured_files) →
    _calculate_condition_coverage files_to_analyze (∅, [])
    = (∅, ConditionCoveragePlugin.Warning_no_coverage_data <$> files_to_analyze).
Proof.
  intros files Hnone.
  assert (∀ st,
            _calculate_condition_coverage files st
            = (st.1, st.2 ++ (ConditionCoveragePlugin.Warning_no_coverage_data
                                <$> files))) as Hloop.
  { unfold ConditionCoveragePlugin._calculate_condition_coverage.
    induction files as [|f files IH]; intros [results log]; simpl.
    - by rewrite (right_id_L [] (++)).
    - rewrite calculate_step_eq. unfold stored, logged.
      rewrite bool_decide_eq_true_2 by (apply Hnone; by left).
      rewrite IH by (intros g Hg; apply Hnone; by right).
      simpl. by rewrite <- (assoc_L (++)). }
  apply (Hloop (∅, [])).
Qed.

(** X17. A file that cannot be read is skipped like one that does not
    parse: the results are those of the list without the file, and the log
    is that of the files before it, the error record with the exception of
    [open] or [read], and that of the files after it. *)
Theorem unreadable_file_is_skipped :
  ∀ (before after : list string) (file_path : string) (e : exn),
    abspath file_path ∈ measured_files →
    read_file file_path = Raise e →
    (_calculate_condition_coverage (before ++ file_path :: after) (∅, [])).1
    = (_calculate_condition_coverage (before ++ after) (∅, [])).1
    ∧ (_calculate_condition_coverage (before ++ file_path :: after) (∅, [])).2
      = (_calculate_condition_coverage before (∅, [])).2
        ++ ConditionCoveragePlugin.Error_processing file_path e
           :: (_calculate_condition_coverage after (∅, [])).2.
Proof.
  intros before after file_path e Hm Hread.
  assert (ConditionCoveragePlugin.process_file coverage_lines read_file ast_parse
            file_path (abspath file_path) = Raise e) as Hprocess.
  { unfold ConditionCoveragePlugin.process_file. by rewrite Hread. }
  assert (bool_decide (abspath file_path ∉ measured_files) = false) as Hb.
  { apply bool_decide_eq_false. by intros []. }
  split.
  - apply map_eq. intros g. rewrite !calculate_results. cbn [fst].
    destruct (decide (g = file_path)) as [->|Hne].
    + assert (stored file_path = None) as ->.
      { unfold stored. by rewrite Hb, Hprocess. }
      by destruct (bool_decide (file_path ∈ before ++ file_path :: after)),
           (bool_decide (file_path ∈ before ++ after)).
    + assert (bool_decide (g ∈ before ++ file_path :: after)
              = bool_decide (g ∈ before ++ after)) as ->; [|done].
      apply bool_decide_ext.
      rewrite !elem_of_app, elem_of_cons. tauto.
  - rewrite !calculate_log. cbn [snd app]. rewrite bind_app, bind_cons.
    unfold logged at 2. by rewrite Hb, Hprocess.
Qed.
End files_loop.

(** X16 on two files and no coverage data. *)
Lemma no_coverage_data_only_warns_witness :
  ConditionCoveragePlugin._calculate_condition_coverage
    id ∅ (λ _, None) batch_read_file batch_ast_parse
    ["/pkg/bad.py"; "/pkg/good.py"] (∅, [])
  = (∅, ConditionCoveragePlugin.Warning_no_coverage_data
          <$> ["/pkg/bad.py"; "/pkg/good.py"]).
Proof.
  apply (no_coverage_data_only_warns
           id ∅ (λ _, None) batch_read_file batch_ast_parse
           ["/pkg/bad.py"; "/pkg/good.py"]).
  intros f _. apply not_elem_of_empty.
Defined.

(** X17 on the batch, with a first file that is gone. *)
Lemma unreadable_file_is_skipped_witness :
  (ConditionCoveragePlugin._calculate_condition_coverage
     id batch_measured_files (λ _, None)
     (λ file_path,
        if decide (file_path = "/pkg/bad.py")
        then Raise (OtherException "FileNotFoundError") else Ok "x = 1")
     batch_ast_parse ([] ++ "/pkg/bad.py" :: ["/pkg/good.py"]) (∅, [])).1
  = (ConditionCoveragePlugin._calculate_condition_coverage
       id batch_measured_files (λ _, None)
       (λ file_path,
          if decide (file_path = "/pkg/bad.py")
          then Raise (OtherException "FileNotFoundError") else Ok "x = 1")
       batch_ast_parse ([] ++ ["/pkg/good.py"]) (∅, [])).1
  ∧ (ConditionCoveragePlugin._calculate_condition_coverage
       id batch_measured_files (λ _, None)
       (λ file_path,
          if decide (file_path = "/pkg/bad.py")
          then Raise (OtherException "FileNotFoundError") else Ok "x = 1")
       batch_ast_parse ([] ++ "/pkg/bad.py" :: ["/pkg/good.py"]) (∅, [])).2
    = (ConditionCoveragePlugin._calculate_condition_coverage
         id batch_measured_files (λ _, None)
         (λ file_path,
            if decide (file_path = "/pkg/bad.py")
            then Raise (OtherException "FileNotFoundError") else Ok "x = 1")
         batch_ast_parse [] (∅, [])).2
      ++ ConditionCoveragePlugin.Error_processing
           "/pkg/bad.py" (OtherException "FileNotFoundError")
         :: (ConditionCoveragePlugin._calculate_condition_coverage
               id batch_measured_files (λ _, None)
               (λ file_path,
                  if decide (file_path = "/pkg/bad.py")
                  then Raise (OtherException "FileNotFoundError") else Ok "x = 1")
               batch_ast_parse ["/pkg/good.py"] (∅, [])).2.
Proof.
  apply (unreadable_file_is_skipped
           id batch_measured_files (λ _, None)
           (λ file_path,
              if decide (file_path = "/pkg/bad.py")
              then Raise (OtherException "FileNotFoundError") else Ok "x = 1")
           batch_ast_parse [] ["/pkg/good.py"] "/pkg/bad.py"
           (OtherException "FileNotFoundError")).
  - apply elem_of_union_l, elem_of_singleton. reflexivity.
  - reflexivity.
Defined.

(** ** The session, end to end *)

(** X18. [pytest_sessionfinish] raises what [CoverageData().read()],
    [os.makedirs], [json.dump] or the write of the HTML report raises, in
    that order, and nothing else: whatever the files of the package hold,
    the loop and the [report_data] in between always come out.  The report
    handed to the two writers has a top-level figure between 0 and 100, and
    every entry of its [files] table has at most as many covered conditions
    as conditions, a percentage between 0 and 100, and belongs to a [.py]
    file found under the package for which coverage has data. *)
Theorem sessionfinish_report :
  ∀ os_walk join abspath relpath
    (coverage_read : result ConditionCoveragePlugin.CoverageData)
    read_file ast_parse os_makedirs json_dump write_html
    (package_name : option string),
    (∀ e, coverage_read = Raise e →
          ConditionCoveragePlugin.pytest_sessionfinish
            os_walk join abspath relpath coverage_read read_file ast_parse
            os_makedirs json_dump write_html package_name
          = Raise e)
    ∧ ∀ coverage_data,
        coverage_read = Ok coverage_data →
        ∃ report log,
          ConditionCoveragePlugin.pytest_sessionfinish
            os_walk join abspath relpath coverage_read read_file ast_parse
            os_makedirs json_dump write_html package_name
          = (_ ← os_makedirs "htmlcov";
             _ ← json_dump (join "htmlcov" "condition_coverage.json") report;
             _ ← write_html (join "htmlcov" "condition_coverage.html") report;
             Ok log)
          ∧ (0 <= ConditionCoveragePlugin.total_condition_coverage report)%Q
          ∧ (ConditionCoveragePlugin.total_condition_coverage report <= 100)%Q
          ∧ ∀ k r,
              ConditionCoveragePlugin.files report !! k = Some r →
              ConditionCoveragePlugin.covered_conditions r
              ≤ ConditionCoveragePlugin.total_conditions r
              ∧ (0 <= ConditionCoveragePlugin.condition_coverage r)%Q
              ∧ (ConditionCoveragePlugin.condition_coverage r <= 100)%Q
              ∧ ∃ g,
                  relpath g = k
                  ∧ g ∈ ConditionCoveragePlugin._find_package_files
                          os_walk join abspath package_name
                  ∧ abspath g
                    ∈ ConditionCoveragePlugin.measured_files coverage_data.
Proof.
  intros os_walk join abspath relpath coverage_read read_file ast_parse
    os_makedirs json_dump write_html package_name.
  unfold ConditionCoveragePlugin.pytest_sessionfinish.
  split; [by intros e ->|]. intros coverage_data ->.
  cbn [mbind result_bind].
  set (measured_files := ConditionCoveragePlugin.measured_files coverage_data).
  set (coverage_lines := ConditionCoveragePlugin.lines coverage_data).
  set (files := ConditionCoveragePlugin._find_package_files
                  os_walk join abspath package_name).
  pose proof (calculate_results abspath measured_files coverage_lines read_file
                ast_parse files (∅, [])) as Hresults.
  destruct (ConditionCoveragePlugin._calculate_condition_coverage
              abspath measured_files coverage_lines read_file ast_parse
              files (∅, [])) as [results log].
  cbn [fst] in Hresults.
  assert (∀ g r, results !! g = Some r →
            g ∈ files ∧ abspath g ∈ measured_files
            ∧ ConditionCoveragePlugin.covered_conditions r
              ≤ ConditionCoveragePlugin.total_conditions r
            ∧ (0 <= ConditionCoveragePlugin.condition_coverage r)%Q
            ∧ (ConditionCoveragePlugin.condition_coverage r <= 100)%Q) as Hentry.
  { intros g r Hg. rewrite Hresults in Hg.
    destruct (decide (g ∈ files)) as [Hin|Hin].
    - rewrite (bool_decide_eq_true_2 _ Hin) in Hg.
      destruct (stored abspath measured_files coverage_lines read_file ast_parse g)
        as [r'|] eqn:Hstored; [|by rewrite lookup_empty in Hg].
      injection Hg as ->.
      apply stored_Some in Hstored as (Hm & source & t & _ & _ & Hmeasure).
      split; [done|]. split; [done|]. by apply measure_covered_le in Hmeasure.
    - rewrite (bool_decide_eq_false_2 _ Hin), lookup_empty in Hg. done. }
  unfold ConditionCoveragePlugin._generate_report_io.
  destruct (generate_report_Ok relpath results) as (report_files & -> & _ & Hfiles).
  exists (ConditionCoveragePlugin.mk_report_data report_files
            (if decide (grand_total results = 0) then 0%Q
             else percentage (grand_covered results) (grand_total results))), log.
  cbn [ConditionCoveragePlugin.total_condition_coverage
       ConditionCoveragePlugin.files].
  split; [|split; [|split]].
  - cbn [mbind result_bind]. destruct (os_makedirs "htmlcov"); [|done].
    destruct (json_dump _ _); [|done]. by destruct (write_html _ _).
  - destruct (decide (grand_total results = 0)); [done|apply percentage_nonneg].
  - destruct (decide (grand_total results = 0)); [done|].
    apply percentage_le_100, grand_covered_le.
    intros g r Hg. by apply Hentry in Hg as (_ & _ & ? & _).
  - intros k r (g & Hg & Hk)%Hfiles.
    apply Hentry in Hg as (Hin & Hm & Hcov & H0 & H100). by eauto 10.
Qed.

(** ** The severity classes of the HTML report *)

Lemma coverage_class_good (coverage : Q) :
  ConditionCoveragePlugin.coverage_class coverage = "coverage-good"
  ↔ (80 <= coverage)%Q.
Proof.
  unfold ConditionCoveragePlugin.coverage_class. rewrite <- Qle_bool_iff.
  destruct (Qle_bool 80 coverage); [done|].
  by destruct (Qle_bool 60 coverage).
Qed.

Lemma coverage_class_bad (coverage : Q) :
  ConditionCoveragePlugin.coverage_class coverage = "coverage-bad"
  ↔ ¬ (60 <= coverage)%Q.
Proof.
  unfold ConditionCoveragePlugin.coverage_class.
  destruct (Qle_bool 80 coverage) eqn:H80.
  - apply Qle_bool_iff in H80. split; [done|]. intros [].
    by apply Qle_trans with 80%Q.
  - rewrite <- Qle_bool_iff. by destruct (Qle_bool 60 coverage).
Qed.

(** X19. The severity class shown for a file never worsens when more lines
    ran: a file shown as [coverage-good] stays so, and a file shown as
    [coverage-bad] with the larger set was so with the smaller one. A file
    without conditions is shown as [coverage-good]. *)
Theorem severity_never_worsens :
  ∀ (analyzer : ConditionCoverageAnalyzer.t) (E E' : gset Z),
    E ⊆ E' →
    ∃ r r',
      ConditionCoveragePlugin.measure analyzer E = Ok r
      ∧ ConditionCoveragePlugin.measure analyzer E' = Ok r'
      ∧ (ConditionCoveragePlugin.coverage_class
           (ConditionCoveragePlugin.condition_coverage r) = "coverage-good" →
         ConditionCoveragePlugin.coverage_class
           (ConditionCoveragePlugin.condition_coverage r') = "coverage-good")
      ∧ (ConditionCoveragePlugin.coverage_class
           (ConditionCoveragePlugin.condition_coverage r') = "coverage-bad" →
         ConditionCoveragePlugin.coverage_class
           (ConditionCoveragePlugin.condition_coverage r) = "coverage-bad")
      ∧ (ConditionCoveragePlugin.total_conditions r = 0 →
         ConditionCoveragePlugin.coverage_class
           (ConditionCoveragePlugin.condition_coverage r) = "coverage-good").
Proof.
  intros analyzer E E' Hsub.
  destruct (measure_Ok analyzer E) as (self1 & -> & _ & _).
  destruct (measure_Ok analyzer E') as (self2 & -> & _ & _).
  set (keys := condition_lines (extracted analyzer)).
  set (total := size (ConditionCoverageAnalyzer.conditions (extracted analyzer))).
  do 2 eexists. split; [reflexivity|]. split; [reflexivity|]. entry_simpl.
  assert (percentage (file_covered E keys) total
          <= percentage (file_covered E' keys) total)%Q as Hle.
  { apply percentage_mono, count_mono. intros l _ Hl.
    apply bool_decide_eq_true in Hl. apply bool_decide_eq_true. by apply Hsub. }
  split; [|split].
  - rewrite !coverage_class_good. intros H80. by apply Qle_trans with (1 := H80).
  - rewrite !coverage_class_bad. intros Hbad H60. apply Hbad.
    by apply Qle_trans with (1 := H60).
  - intros ->. by rewrite percentage_zero_total.
Qed.

(** X19 on [boolop_and_not_in_method]: from no line to line 3. *)
Lemma severity_never_worsens_witness :
  ∃ r r',
    ConditionCoveragePlugin.measure
      (ConditionCoverageAnalyzer.of_tree "" boolop_and_not_in_method) ∅ = Ok r
    ∧ ConditionCoveragePlugin.measure
        (ConditionCoverageAnalyzer.of_tree "" boolop_and_not_in_method) {[3%Z]}
      = Ok r'
    ∧ (ConditionCoveragePlugin.coverage_class
         (ConditionCoveragePlugin.condition_coverage r) = "coverage-good" →
       ConditionCoveragePlugin.coverage_class
         (ConditionCoveragePlugin.condition_coverage r') = "coverage-good")
    ∧ (ConditionCoveragePlugin.coverage_class
         (ConditionCoveragePlugin.condition_coverage r') = "coverage-bad" →
       ConditionCoveragePlugin.coverage_class
         (ConditionCoveragePlugin.condition_coverage r) = "coverage-bad")
    ∧ (ConditionCoveragePlugin.total_conditions r = 0 →
       ConditionCoveragePlugin.coverage_class
         (ConditionCoveragePlugin.condition_coverage r) = "coverage-good").
Proof.
  apply (severity_never_worsens
           (ConditionCoverageAnalyzer.of_tree "" boolop_and_not_in_method)
           ∅ {[3%Z]}).
  apply empty_subseteq.
Defined.
